(** * polyfile/expressions.py: lexer, shunting-yard converter and postfix evaluator

    A shallow embedding of the expression language of [polyfile/expressions.py]:
    the operator table, the token classes, [Tokenizer], [infix_to_rpn],
    [collect_keys], [Expression.get_value], [Expression.to_str] (as far as it
    can fail) and [Expression.interpret], followed by the properties of the
    specification that were checked against them and by further properties
    of the code.

    Conventions of the embedding.
    - A Python call either returns or raises: [result A] is [Return a] or
      [Raise e].  An exception object that is stored on the value stack instead
      of being raised is the value [VExc e].  The [while] loops of the lexer
      are written with a fuel argument; [OutOfFuel] is the outcome of a loop
      whose fuel ran out; [parse_interpret_total] shows that it never occurs.
    - Python values are the closed universe [pyvalue]: [None], [bool], [int]
      (unbounded, as [Z]), [bytes], [str], [dict] with [str] keys, [tuple],
      token objects and exception objects.  [bytearray] behaves as [bytes]
      in every operation used here and is not represented separately.
    - Characters are [ascii] and text is [string]; the input is taken to be
      ASCII text.
    - The logger ([log.debug], [log.debug_nesting]) lives outside this module
      and has no effect on results; only the argument it is handed, which
      Python evaluates before the call, is modelled. *)

From Stdlib Require Import ZArith Ascii String List Bool Lia.
From stdpp Require Import gmap strings list fin_maps pretty.

#[local] Set Warnings "-register-all".
#[local] Open Scope Z_scope.

(** ** Exceptions and results *)

Inductive exc_class :=
| KeyError
| IndexError
| TypeError
| ValueError
| AttributeError
| ZeroDivisionError
| RuntimeError
| NotImplementedError.

(** What an exception object carries.  Texts that the source writes out are
    kept; texts that Python's runtime chooses, or that are rendered with
    [str]/[repr] of stack slots, are kept abstract. *)
Inductive exc_detail :=
| Msg (text : string)              (* a message spelled out in the source *)
| Key (k : string)                 (* KeyError(k) raised by a dict lookup of the str k *)
| Subscript_rendering              (* f"{values[-2]!s}[{values[-1]}]" *)
| Extra_tokens_rendering           (* f"Unexpected extra tokens: {values[:-1]}" *)
| Arity_rendering                  (* f"Add support for operators of arity { t.op.arity }" *)
| Cannot_convert_rendering         (* f"Cannot convert {v!r} to an integer" *)
| Builtin.                         (* message chosen by the Python runtime *)

Inductive PyExc := Exc (cls : exc_class) (detail : exc_detail).

#[global] Instance exc_class_eq_dec : EqDecision exc_class.
Proof. solve_decision. Defined.
#[global] Instance exc_detail_eq_dec : EqDecision exc_detail.
Proof. solve_decision. Defined.
#[global] Instance PyExc_eq_dec : EqDecision PyExc.
Proof. solve_decision. Defined.

Inductive result (A : Type) :=
| Return (a : A)
| Raise (e : PyExc)
| OutOfFuel.
Arguments Return {A} a.
Arguments Raise {A} e.
Arguments OutOfFuel {A}.

#[global] Instance result_ret : MRet result := fun A a => Return a.
#[global] Instance result_bind : MBind result := fun A B k r =>
  match r with
  | Return a => k a
  | Raise e => Raise e
  | OutOfFuel => OutOfFuel
  end.

Definition returns {A} (r : result A) : bool :=
  match r with Return _ => true | _ => false end.

Definition raises_class {A} (c : exc_class) (r : result A) : bool :=
  match r with
  | Raise (Exc c' _) => bool_decide (c = c')
  | _ => false
  end.

(** ** The operator table (class [Operator]) *)

Inductive Operator :=
| ENUM_ACCESSOR
| MEMBER_ACCESS
| UNARY_PLUS
| UNARY_MINUS
| LOGICAL_NOT
| BITWISE_NOT
| MULTIPLICATION
| DIVISION
| REMAINDER
| ADDITION
| SUBTRACTION
| BITWISE_LEFT_SHIFT
| BITWISE_RIGHT_SHIFT
| LESS_THAN
| GREATER_THAN
| LESS_THAN_EQUAL
| GREATER_THAN_EQUAL
| EQUALS
| NOT_EQUAL
| BITWISE_AND
| BITWISE_XOR
| BITWISE_OR
| LOGICAL_AND
| LOGICAL_OR
| TERNARY_ELSE
| TERNARY_CONDITIONAL
| GETITEM.

#[global] Instance Operator_eq_dec : EqDecision Operator.
Proof. solve_decision. Defined.

(** The members in the order of their definition in the class body. *)
Definition Operator_members : list Operator :=
  [ ENUM_ACCESSOR; MEMBER_ACCESS; UNARY_PLUS; UNARY_MINUS; LOGICAL_NOT;
    BITWISE_NOT; MULTIPLICATION; DIVISION; REMAINDER; ADDITION; SUBTRACTION;
    BITWISE_LEFT_SHIFT; BITWISE_RIGHT_SHIFT; LESS_THAN; GREATER_THAN;
    LESS_THAN_EQUAL; GREATER_THAN_EQUAL; EQUALS; NOT_EQUAL; BITWISE_AND;
    BITWISE_XOR; BITWISE_OR; LOGICAL_AND; LOGICAL_OR; TERNARY_ELSE;
    TERNARY_CONDITIONAL; GETITEM ].

(** The positional part of each member's value, with the defaults of
    [Operator.__init__] written out: [is_left_associative=True], [arity=2],
    [multiple_arity=False], [expand=None].  The [execute] component is
    the function [execute] further down. *)
Record OperatorInit := {
  init_token : string;
  init_priority : Z;
  init_left_associative : bool;
  init_arity : nat;
  init_multiple_arity : bool;
  init_expand : option (list bool)
}.

Definition mk_op (tok : string) (prio : Z) (la : bool) (ar : nat) (ma : bool)
    (ex : option (list bool)) : OperatorInit :=
  {| init_token := tok; init_priority := prio; init_left_associative := la;
     init_arity := ar; init_multiple_arity := ma; init_expand := ex |}.

Definition Operator_value (op : Operator) : OperatorInit :=
  match op with
  | ENUM_ACCESSOR       => mk_op "::" 0 true 2 false (Some [true; false])
  | MEMBER_ACCESS       => mk_op "." 1 true 2 false (Some [true; false])
  | UNARY_PLUS          => mk_op "+" 2 false 1 true None
  | UNARY_MINUS         => mk_op "-" 2 false 1 true None
  | LOGICAL_NOT         => mk_op "not" 2 false 1 false None
  | BITWISE_NOT         => mk_op "~" 2 false 1 false None
  | MULTIPLICATION      => mk_op "*" 3 true 2 false None
  | DIVISION            => mk_op "/" 3 true 2 false None
  | REMAINDER           => mk_op "%" 3 true 2 false None
  | ADDITION            => mk_op "+" 4 true 2 false None
  | SUBTRACTION         => mk_op "-" 4 true 2 false None
  | BITWISE_LEFT_SHIFT  => mk_op "<<" 5 true 2 false None
  | BITWISE_RIGHT_SHIFT => mk_op ">>" 5 true 2 false None
  | LESS_THAN           => mk_op "<" 6 true 2 false None
  | GREATER_THAN        => mk_op ">" 6 true 2 false None
  | LESS_THAN_EQUAL     => mk_op "<=" 6 true 2 false None
  | GREATER_THAN_EQUAL  => mk_op ">=" 6 true 2 false None
  | EQUALS              => mk_op "==" 7 true 2 false None
  | NOT_EQUAL           => mk_op "!=" 7 true 2 false None
  | BITWISE_AND         => mk_op "&" 8 true 2 false None
  | BITWISE_XOR         => mk_op "^" 9 true 2 false None
  | BITWISE_OR          => mk_op "|" 10 true 2 false None
  | LOGICAL_AND         => mk_op "and" 11 true 2 false None
  | LOGICAL_OR          => mk_op "or" 12 true 2 false None
  | TERNARY_ELSE        => mk_op ":" 13 false 2 false (Some [false; false])
  | TERNARY_CONDITIONAL => mk_op "?" 14 false 2 false (Some [true; false])
  | GETITEM             => mk_op "__getitem__" 1 true 2 false None
  end.

(** The attributes set by [Operator.__init__]. *)
Definition token (op : Operator) : string := init_token (Operator_value op).
Definition priority (op : Operator) : Z := init_priority (Operator_value op).
Definition left_associative (op : Operator) : bool :=
  init_left_associative (Operator_value op).
Definition arity (op : Operator) : nat := init_arity (Operator_value op).
Definition multiple_arity (op : Operator) : bool :=
  init_multiple_arity (Operator_value op).
Definition expand (op : Operator) : list bool :=
  match init_expand (Operator_value op) with
  | None => replicate (arity op) true
  | Some e => e
  end.

(** [OPERATORS_BY_NAME]: every member that is not [multiple_arity] registers
    itself under its token while the class body is executed, a later member
    replacing an earlier one under the same key. *)
Definition register (d : gmap string Operator) (op : Operator) : gmap string Operator :=
  if multiple_arity op then d else <[token op := op]> d.

Definition OPERATORS_BY_NAME : gmap string Operator :=
  foldl register ∅ Operator_members.

Definition in_OPERATORS_BY_NAME (c : string) : bool :=
  bool_decide (is_Some (OPERATORS_BY_NAME !! c)).

(** ** Tokens *)

Inductive Token :=
| OpenParen
| CloseParen
| OpenBracket
| CloseBracket
| OperatorToken (op : Operator)
| IdentifierToken (name : string)
| IntegerToken (raw_str : string) (value : Z).

#[global] Instance Token_eq_dec : EqDecision Token.
Proof. solve_decision. Defined.

(** [Token.raw_token]: the text handed to [Token.__init__]. *)
Definition raw_token (t : Token) : string :=
  match t with
  | OpenParen => "("
  | CloseParen => ")"
  | OpenBracket => "["
  | CloseBracket => "]"
  | OperatorToken op => token op
  | IdentifierToken name => name
  | IntegerToken raw_str _ => raw_str
  end.

(** [Token.__len__] *)
Definition Token_len (t : Token) : nat := String.length (raw_token t).

Definition is_OperatorToken (t : Token) : bool :=
  match t with OperatorToken _ => true | _ => false end.

(** ** Text helpers *)

(** [s[:n]] and [s[n:]] for [0 <= n]. *)
Fixpoint str_take (n : nat) (s : string) : string :=
  match n, s with
  | S n', String a s' => String a (str_take n' s')
  | _, _ => EmptyString
  end.

Fixpoint str_drop (n : nat) (s : string) : string :=
  match n, s with
  | S n', String _ s' => str_drop n' s'
  | _, _ => s
  end.

Definition ord (ch : ascii) : Z := Z.of_N (N_of_ascii ch).

(** [IDENTIFIER_BYTES]: the letters, the digits, ['-'] and ['_']. *)
Definition in_IDENTIFIER_BYTES (ch : ascii) : bool :=
  ((ord "A" <=? ord ch) && (ord ch <=? ord "Z"))
  || ((ord "a" <=? ord ch) && (ord ch <=? ord "z"))
  || ((ord "0" <=? ord ch) && (ord ch <=? ord "9"))
  || bool_decide (ch = "-"%char) || bool_decide (ch = "_"%char).

(** ** Python's [int(text, base)]

    The builtin as CPython implements it for text ([PyLong_FromString]):
    optional surrounding whitespace, an optional sign, for bases 16, 8 and 2
    an optional [0x]/[0o]/[0b] prefix (either case) that one underscore may
    follow, then digits of the base, single underscores allowed between
    digits only.  [None] stands for [ValueError].  The interpreter's limit on
    the number of decimal digits is not modelled. *)

Definition Py_ISSPACE (ch : ascii) : bool :=
  ((9 <=? ord ch) && (ord ch <=? 13)) || (ord ch =? 32).

Definition digit_value (ch : ascii) : Z :=
  if (ord "0" <=? ord ch) && (ord ch <=? ord "9") then ord ch - ord "0"
  else if (ord "a" <=? ord ch) && (ord ch <=? ord "z") then ord ch - ord "a" + 10
  else if (ord "A" <=? ord ch) && (ord ch <=? ord "Z") then ord ch - ord "A" + 10
  else 37.

Fixpoint skip_space (s : string) : string :=
  match s with
  | String ch s' => if Py_ISSPACE ch then skip_space s' else s
  | EmptyString => s
  end.

Definition skip_sign (s : string) : Z * string :=
  match s with
  | String "+" s' => (1, s')
  | String "-" s' => (-1, s')
  | _ => (1, s)
  end.

Definition skip_prefix (base : Z) (s : string) : string :=
  match s with
  | String "0" (String x s') =>
      if ((base =? 16) && (bool_decide (x = "x"%char) || bool_decide (x = "X"%char)))
         || ((base =? 8) && (bool_decide (x = "o"%char) || bool_decide (x = "O"%char)))
         || ((base =? 2) && (bool_decide (x = "b"%char) || bool_decide (x = "B"%char)))
      then match s' with
           | String "_" s'' => s''
           | _ => s'
           end
      else s
  | _ => s
  end.

(** The digit scan: [prev_us] tells whether the previous character was an
    underscore, [seen] whether any character was consumed. *)
Fixpoint scan_digits (base : Z) (prev_us seen : bool) (acc : Z) (s : string)
    : option (Z * string) :=
  match s with
  | String ch s' =>
      if bool_decide (ch = "_"%char) then
        if prev_us then None else scan_digits base true true acc s'
      else if digit_value ch <? base then
        scan_digits base false true (acc * base + digit_value ch) s'
      else if prev_us || negb seen then None else Some (acc, s)
  | EmptyString => if prev_us || negb seen then None else Some (acc, s)
  end.

Definition py_int (s : string) (base : Z) : option Z :=
  let '(sign, s1) := skip_sign (skip_space s) in
  let s2 := skip_prefix base s1 in
  match s2 with
  | String "_" _ => None
  | _ =>
      match scan_digits base false false 0 s2 with
      | Some (n, rest) =>
          match skip_space rest with
          | EmptyString => Some (sign * n)
          | _ => None
          end
      | None => None
      end
  end.

(** ** class [Tokenizer] *)

(** [_stream] is the unread remainder of the character source, [_buffer] the
    deque of characters read ahead. *)
Record Tokenizer := {
  _stream : string;
  _buffer : string;
  _next_token : option Token;
  prev_token : option Token
}.

(** [Tokenizer.__init__] *)
Definition Tokenizer_init (stream : string) : Tokenizer :=
  {| _stream := stream; _buffer := ""; _next_token := None; prev_token := None |}.

Definition set_io (tk : Tokenizer) (stream buffer : string) : Tokenizer :=
  {| _stream := stream; _buffer := buffer;
     _next_token := _next_token tk; prev_token := prev_token tk |}.

(** [_peek_byte(n)] *)
Definition _peek_byte (n : nat) (tk : Tokenizer) : string * Tokenizer :=
  let bytes_needed := Z.of_nat n - Z.of_nat (String.length (_buffer tk)) in
  let tk1 :=
    if 0 <? bytes_needed then
      let b := str_take (Z.to_nat bytes_needed) (_stream tk) in
      set_io tk (str_drop (Z.to_nat bytes_needed) (_stream tk)) (_buffer tk +:+ b)
    else tk in
  (str_take n (_buffer tk1), tk1).

(** [_pop_byte(n)] *)
Definition _pop_byte (n : nat) (tk : Tokenizer) : string * Tokenizer :=
  if (String.length (_buffer tk) <? n)%nat then
    (_buffer tk +:+ str_take 1 (_stream tk),
     set_io tk (str_drop 1 (_stream tk)) (_buffer tk))
  else
    (str_take n (_buffer tk), set_io tk (_stream tk) (str_drop n (_buffer tk))).

(** [OperatorToken(op)] for a [str] argument: the lookup in
    [OPERATORS_BY_NAME]. *)
Definition OperatorToken_of_str (c : string) : result Token :=
  match OPERATORS_BY_NAME !! c with
  | Some op => Return (OperatorToken op)
  | None => Raise (Exc KeyError (Key c))
  end.

(** The test [self.prev_token is None or isinstance(self.prev_token, OperatorToken)]. *)
Definition prev_allows_unary (tk : Tokenizer) : bool :=
  match prev_token tk with
  | None => true
  | Some t => is_OperatorToken t
  end.

(** The loop [while self._peek_byte() == ' ' or self._peek_byte() == '\t']. *)
Fixpoint skip_leading_whitespace (fuel : nat) (tk : Tokenizer) : result Tokenizer :=
  match fuel with
  | O => OutOfFuel
  | S fuel' =>
      let '(c1, tk1) := _peek_byte 1 tk in
      if bool_decide (c1 = " ") then
        skip_leading_whitespace fuel' (snd (_pop_byte 1 tk1))
      else
        let '(c2, tk2) := _peek_byte 1 tk1 in
        if bool_decide (c2 = String "009" "") then
          skip_leading_whitespace fuel' (snd (_pop_byte 1 tk2))
        else Return tk2
  end.

(** The loop [while ret is None] of [peek]; it yields the final [ret] and
    [operand]. *)
Fixpoint peek_loop (fuel : nat) (operand : option string) (tk : Tokenizer)
    : result (option Token * option string * Tokenizer) :=
  match fuel with
  | O => OutOfFuel
  | S fuel' =>
      let '(c, tk) := _peek_byte 3 tk in
      match c with
      | EmptyString => Return (None, operand, tk)
      | String c0 _ =>
          match operand with
          | Some o =>
              if in_IDENTIFIER_BYTES c0 then
                let '(b, tk) := _pop_byte 1 tk in
                peek_loop fuel' (Some (o +:+ b)) tk
              else Return (None, operand, tk)
          | None =>
              if in_OPERATORS_BY_NAME c then
                ret ← OperatorToken_of_str c; Return (Some ret, operand, tk)
              else if in_OPERATORS_BY_NAME (str_take 2 c) then
                ret ← OperatorToken_of_str (str_take 2 c); Return (Some ret, operand, tk)
              else if in_OPERATORS_BY_NAME (String c0 "") then
                if bool_decide (c0 = "+"%char) then
                  if prev_allows_unary tk
                  then Return (Some (OperatorToken UNARY_PLUS), operand, tk)
                  else Return (Some (OperatorToken ADDITION), operand, tk)
                else if bool_decide (c0 = "-"%char) then
                  if prev_allows_unary tk
                  then Return (Some (OperatorToken UNARY_MINUS), operand, tk)
                  else Return (Some (OperatorToken SUBTRACTION), operand, tk)
                else
                  ret ← OperatorToken_of_str (String c0 ""); Return (Some ret, operand, tk)
              else if bool_decide (c0 = "("%char) then Return (Some OpenParen, operand, tk)
              else if bool_decide (c0 = ")"%char) then Return (Some CloseParen, operand, tk)
              else if bool_decide (c0 = "["%char) then Return (Some OpenBracket, operand, tk)
              else if bool_decide (c0 = "]"%char) then Return (Some CloseBracket, operand, tk)
              else if bool_decide (c0 = " "%char) || bool_decide (c0 = "009"%char)
              then Return (None, operand, tk)
              else
                let '(b, tk) := _pop_byte 1 tk in
                peek_loop fuel' (Some b) tk
          end
      end
  end.

(** The classification of a completed operand, the [if operand is not None]
    branch of [peek].  [int] raises [ValueError] on text it cannot read; only
    the decimal attempt is inside a [try]. *)
Definition classify_operand (operand : string) : result Token :=
  if String.prefix "0x" operand then
    match py_int operand 16 with
    | Some v => Return (IntegerToken operand v)
    | None => Raise (Exc ValueError Builtin)
    end
  else if String.prefix "0o" operand then
    match py_int operand 8 with
    | Some v => Return (IntegerToken operand v)
    | None => Raise (Exc ValueError Builtin)
    end
  else if String.prefix "0b" operand then
    match py_int operand 2 with
    | Some v => Return (IntegerToken operand v)
    | None => Raise (Exc ValueError Builtin)
    end
  else
    match py_int operand 10 with
    | Some v => Return (IntegerToken operand v)
    | None => Return (IdentifierToken operand)
    end.

(** The number of characters not yet consumed; it bounds every loop. *)
Definition remaining (tk : Tokenizer) : nat :=
  (String.length (_buffer tk) + String.length (_stream tk))%nat.

(** [Tokenizer.peek] *)
Definition peek (tk : Tokenizer) : result (option Token * Tokenizer) :=
  match _next_token tk with
  | Some t => Return (Some t, tk)
  | None =>
      tk ← skip_leading_whitespace (S (remaining tk)) tk;
      '(ret, operand, tk) ← peek_loop (S (remaining tk)) None tk;
      match operand with
      | Some o => ret ← classify_operand o; Return (Some ret, tk)
      | None =>
          match ret with
          | Some t => Return (ret, snd (_pop_byte (Token_len t) tk))
          | None => Return (ret, tk)
          end
      end
  end.

(** [Tokenizer.has_next] *)
Definition has_next (tk : Tokenizer) : result (bool * Tokenizer) :=
  '(ret, tk) ← peek tk; Return (bool_decide (is_Some ret), tk).

(** [Tokenizer.next] *)
Definition next (tk : Tokenizer) : result (option Token * Tokenizer) :=
  '(ret, tk) ← peek tk;
  Return (ret, {| _stream := _stream tk; _buffer := _buffer tk;
                  _next_token := None; prev_token := ret |}).

(** [Tokenizer.__iter__], collected into a list. *)
Fixpoint iter_loop (fuel : nat) (tk : Tokenizer) : result (list Token) :=
  match fuel with
  | O => OutOfFuel
  | S fuel' =>
      '(ret, tk) ← next tk;
      match ret with
      | None => Return []
      | Some t => ts ← iter_loop fuel' tk; Return (t :: ts)
      end
  end.

(** [tokenize], all tokens of the text. *)
Definition tokenize (s : string) : result (list Token) :=
  iter_loop (S (String.length s)) (Tokenizer_init s).

(** ** Python values *)

(** The objects that reach the evaluator.  The values of an assignments
    mapping are [None], [bool], [int], [bytes], [str] and nested mappings with
    [str] keys; tuples are built by [TERNARY_ELSE] and by [+]; tokens sit on
    the value stack until they are expanded; exception objects are the
    deferred errors. *)
Inductive pyvalue :=
| VNone
| VBool (b : bool)
| VInt (z : Z)
| VBytes (bs : list Byte.byte)
| VStr (s : string)
| VTuple (items : list pyvalue)
| VDict (d : gmap string pyvalue)
| VToken (t : Token)
| VExc (e : PyExc).

(** [isinstance(v, int)], with the integer it denotes ([bool] is a subclass
    of [int]). *)
Definition as_int (v : pyvalue) : option Z :=
  match v with
  | VInt z => Some z
  | VBool b => Some (if b then 1 else 0)
  | _ => None
  end.

(** [bool(v)]: [Token] defines [__len__], so a token is true when its raw
    text is not empty. *)
Definition truthy (v : pyvalue) : bool :=
  match v with
  | VNone => false
  | VBool b => b
  | VInt z => negb (z =? 0)
  | VBytes bs => negb (bool_decide (length bs = 0%nat))
  | VStr s => negb (bool_decide (String.length s = 0%nat))
  | VTuple items => negb (bool_decide (length items = 0%nat))
  | VDict d => negb (bool_decide (size d = 0%nat))
  | VToken t => negb (bool_decide (Token_len t = 0%nat))
  | VExc _ => true
  end.

Definition byte_val (b : Byte.byte) : Z := Z.of_N (Byte.to_N b).

Fixpoint ords (s : string) : list Z :=
  match s with
  | EmptyString => []
  | String ch s' => ord ch :: ords s'
  end.

(** [int.from_bytes(bs, byteorder='big')] *)
Definition from_bytes_big (bs : list Byte.byte) : Z :=
  foldl (fun acc b => acc * 256 + byte_val b) 0 bs.

(** [bytes(v)] for a [v] that is not an [int], [bytes] or [str], the only
    way [to_int] calls it.  A tuple is read item by item: an item that is not
    an integer raises [TypeError], one outside [range(0, 256)] raises
    [ValueError].  A mapping is read through its keys, which are text. *)
Fixpoint bytes_of_items (items : list pyvalue) : result (list Byte.byte) :=
  match items with
  | [] => Return []
  | v :: items' =>
      match as_int v with
      | None => Raise (Exc TypeError Builtin)
      | Some z =>
          if (0 <=? z) && (z <? 256) then
            match Byte.of_N (Z.to_N z) with
            | Some b => bs ← bytes_of_items items'; Return (b :: bs)
            | None => Raise (Exc ValueError Builtin)
            end
          else Raise (Exc ValueError Builtin)
      end
  end.

Definition py_bytes (v : pyvalue) : result (list Byte.byte) :=
  match v with
  | VTuple items => bytes_of_items items
  | VDict d => if bool_decide (size d = 0%nat) then Return [] else Raise (Exc TypeError Builtin)
  | VBytes bs => Return bs
  | _ => Raise (Exc TypeError Builtin)
  end.

(** [to_int] on [bytes]. *)
Definition to_int_bytes (bs : list Byte.byte) : Z :=
  match bs with
  | [] => 0
  | [b] => byte_val b
  | _ => from_bytes_big bs
  end.

(** [to_int(v)] with the default [byteorder='big'].  For text of length one
    [int(v[0])] reads the character as a decimal numeral; for longer text
    [int.from_bytes] is handed a [str] and raises [TypeError]. *)
Definition to_int (v : pyvalue) : result Z :=
  match v with
  | VInt z => Return z
  | VBool b => Return (if b then 1 else 0)
  | VBytes bs => Return (to_int_bytes bs)
  | VStr s =>
      match s with
      | EmptyString => Return 0
      | String ch EmptyString =>
          match py_int (String ch EmptyString) 10 with
          | Some z => Return z
          | None => Raise (Exc ValueError Builtin)
          end
      | _ => Raise (Exc TypeError Builtin)
      end
  | _ =>
      match py_bytes v with
      | Return bs => Return (to_int_bytes bs)
      | Raise (Exc TypeError _) => Raise (Exc ValueError Cannot_convert_rendering)
      | Raise e => Raise e
      | OutOfFuel => OutOfFuel
      end
  end.

(** [a == b].  Tokens and exception objects compare by identity; in an
    expression built by [parse] every token is an object of its own, so two
    slots of the value stack never hold the same one. *)
Fixpoint py_eq (a b : pyvalue) {struct a} : bool :=
  match a, b with
  | VNone, VNone => true
  | VInt x, VInt y => x =? y
  | VInt x, VBool y => x =? (if y then 1 else 0)
  | VBool x, VInt y => (if x then 1 else 0) =? y
  | VBool x, VBool y => Bool.eqb x y
  | VBytes x, VBytes y => bool_decide (byte_val <$> x = byte_val <$> y)
  | VStr x, VStr y => bool_decide (x = y)
  | VTuple l1, VTuple l2 =>
      (fix go (l1 l2 : list pyvalue) : bool :=
         match l1, l2 with
         | [], [] => true
         | x :: l1', y :: l2' => py_eq x y && go l1' l2'
         | _, _ => false
         end) l1 l2
  | VDict d1, VDict d2 =>
      bool_decide (size d1 = size d2)
      && map_fold (fun k v acc =>
                     acc && match d2 !! k with
                            | Some v' => py_eq v v'
                            | None => false
                            end) true d1
  | _, _ => false
  end.

Fixpoint lex_compare (l1 l2 : list Z) : comparison :=
  match l1, l2 with
  | [], [] => Eq
  | [], _ :: _ => Lt
  | _ :: _, [] => Gt
  | x :: l1', y :: l2' =>
      match x ?= y with
      | Eq => lex_compare l1' l2'
      | c => c
      end
  end.

(** The ordering behind [<], [>], [<=], [>=]; [None] where Python raises
    [TypeError].  Tuples are compared at the first pair of items that are not
    [==], and by length when there is none. *)
Fixpoint py_compare (a b : pyvalue) {struct a} : option comparison :=
  match a, b with
  | VInt x, VInt y => Some (x ?= y)
  | VInt x, VBool y => Some (x ?= (if y then 1 else 0))
  | VBool x, VInt y => Some ((if x then 1 else 0) ?= y)
  | VBool x, VBool y => Some ((if x then 1 else 0) ?= (if y then 1 else 0))
  | VBytes x, VBytes y => Some (lex_compare (byte_val <$> x) (byte_val <$> y))
  | VStr x, VStr y => Some (lex_compare (ords x) (ords y))
  | VTuple l1, VTuple l2 =>
      (fix go (l1 l2 : list pyvalue) : option comparison :=
         match l1, l2 with
         | [], [] => Some Eq
         | [], _ :: _ => Some Lt
         | _ :: _, [] => Some Gt
         | x :: l1', y :: l2' =>
             if py_eq x y then go l1' l2' else py_compare x y
         end) l1 l2
  | _, _ => None
  end.

Definition py_order (test : comparison -> bool) (a b : pyvalue) : result pyvalue :=
  match py_compare a b with
  | Some c => Return (VBool (test c))
  | None => Raise (Exc TypeError Builtin)
  end.

(** [a + b] *)
Definition py_add (a b : pyvalue) : result pyvalue :=
  match a, b with
  | VBytes x, VBytes y => Return (VBytes (x ++ y))
  | VStr x, VStr y => Return (VStr (x +:+ y))
  | VTuple x, VTuple y => Return (VTuple (x ++ y))
  | _, _ =>
      match as_int a, as_int b with
      | Some x, Some y => Return (VInt (x + y))
      | _, _ => Raise (Exc TypeError Builtin)
      end
  end.

(** [hash(v)] succeeds: mappings are unhashable, and so is a tuple that
    holds one. *)
Fixpoint hashable (v : pyvalue) : bool :=
  match v with
  | VDict _ => false
  | VTuple items => forallb hashable items
  | _ => true
  end.

(** [seq[i]] for a sequence of length [len]: the position selected, with
    Python's negative indices. *)
Definition seq_index (len : nat) (i : Z) : option nat :=
  let j := if i <? 0 then i + Z.of_nat len else i in
  if (0 <=? j) && (j <? Z.of_nat len) then Some (Z.to_nat j) else None.

(** [a[b]] *)
Definition py_getitem (a b : pyvalue) : result pyvalue :=
  match a with
  | VDict d =>
      if hashable b then
        match b with
        | VStr k =>
            match d !! k with
            | Some v => Return v
            | None => Raise (Exc KeyError (Key k))
            end
        | _ => Raise (Exc KeyError Builtin)
        end
      else Raise (Exc TypeError Builtin)
  | VBytes bs =>
      match as_int b with
      | Some i =>
          match seq_index (length bs) i ≫= (bs !!.) with
          | Some x => Return (VInt (byte_val x))
          | None => Raise (Exc IndexError Builtin)
          end
      | None => Raise (Exc TypeError Builtin)
      end
  | VStr s =>
      match as_int b with
      | Some i =>
          match seq_index (String.length s) i with
          | Some j =>
              match String.get j s with
              | Some ch => Return (VStr (String ch EmptyString))
              | None => Raise (Exc IndexError Builtin)
              end
          | None => Raise (Exc IndexError Builtin)
          end
      | None => Raise (Exc TypeError Builtin)
      end
  | VTuple items =>
      match as_int b with
      | Some i =>
          match seq_index (length items) i ≫= (items !!.) with
          | Some x => Return x
          | None => Raise (Exc IndexError Builtin)
          end
      | None => Raise (Exc TypeError Builtin)
      end
  | _ => Raise (Exc TypeError Builtin)
  end.

(** [b.name]: only an [IdentifierToken] has the attribute. *)
Definition attr_name (b : pyvalue) : result string :=
  match b with
  | VToken (IdentifierToken name) => Return name
  | _ => Raise (Exc AttributeError Builtin)
  end.

(** [member_access(a, b)], and the same body of [ENUM_ACCESSOR]. *)
Definition member_access (a b : pyvalue) : result pyvalue :=
  name ← attr_name b; py_getitem a (VStr name).

(** ** The [execute] functions of the operator table *)

Definition arith (f : Z -> Z -> result Z) (a b : pyvalue) : result pyvalue :=
  x ← to_int a; y ← to_int b; z ← f x y; Return (VInt z).

(** [&], [|] and [^] of two [bool]s give a [bool]; [to_int] hands a [bool]
    back unchanged. *)
Definition bitwise (f : Z -> Z -> Z) (a b : pyvalue) : result pyvalue :=
  x ← to_int a; y ← to_int b;
  match a, b with
  | VBool _, VBool _ => Return (VBool (negb (f x y =? 0)))
  | _, _ => Return (VInt (f x y))
  end.

Definition floordiv (x y : Z) : result Z :=
  if y =? 0 then Raise (Exc ZeroDivisionError Builtin) else Return (x / y).

Definition remainder (x y : Z) : result Z :=
  if y =? 0 then Raise (Exc ZeroDivisionError Builtin) else Return (x mod y).

Definition lshift (x y : Z) : result Z :=
  if y <? 0 then Raise (Exc ValueError Builtin) else Return (Z.shiftl x y).

Definition rshift (x y : Z) : result Z :=
  if y <? 0 then Raise (Exc ValueError Builtin) else Return (Z.shiftr x y).

Definition is_Lt (c : comparison) : bool := match c with Lt => true | _ => false end.
Definition is_Gt (c : comparison) : bool := match c with Gt => true | _ => false end.

(** The one-parameter lambdas. *)
Definition execute1 (op : Operator) (a : pyvalue) : result pyvalue :=
  match op with
  | UNARY_PLUS => Return a
  | UNARY_MINUS => x ← to_int a; Return (VInt (- x))
  | LOGICAL_NOT => Return (VBool (negb (truthy a)))
  | BITWISE_NOT => x ← to_int a; Return (VInt (Z.lnot x))
  | _ => Raise (Exc TypeError Builtin)
  end.

(** The two-parameter lambdas and [member_access]. *)
Definition execute2 (op : Operator) (a b : pyvalue) : result pyvalue :=
  match op with
  | ENUM_ACCESSOR => name ← attr_name b; py_getitem a (VStr name)
  | MEMBER_ACCESS => member_access a b
  | MULTIPLICATION => arith (fun x y => Return (x * y)) a b
  | DIVISION => arith floordiv a b
  | REMAINDER => arith remainder a b
  | ADDITION => py_add a b
  | SUBTRACTION => arith (fun x y => Return (x - y)) a b
  | BITWISE_LEFT_SHIFT => arith lshift a b
  | BITWISE_RIGHT_SHIFT => arith rshift a b
  | LESS_THAN => py_order is_Lt a b
  | GREATER_THAN => py_order is_Gt a b
  | LESS_THAN_EQUAL => py_order (fun c => negb (is_Gt c)) a b
  | GREATER_THAN_EQUAL => py_order (fun c => negb (is_Lt c)) a b
  | EQUALS => Return (VBool (py_eq a b))
  | NOT_EQUAL => Return (VBool (negb (py_eq a b)))
  | BITWISE_AND => bitwise Z.land a b
  | BITWISE_XOR => bitwise Z.lxor a b
  | BITWISE_OR => bitwise Z.lor a b
  | LOGICAL_AND => Return (if truthy a then b else a)
  | LOGICAL_OR => Return (if truthy a then a else b)
  | TERNARY_ELSE => Return (VTuple [a; b])
  | TERNARY_CONDITIONAL => py_getitem b (VBool (negb (truthy a)))
  | GETITEM => py_getitem a b
  | _ => Raise (Exc TypeError Builtin)
  end.

(** [t.op.execute( *args )]: a call with the wrong number of arguments raises
    [TypeError].  The number of parameters of every member's function is
    its [arity]. *)
Definition execute (op : Operator) (args : list pyvalue) : result pyvalue :=
  match arity op, args with
  | 1%nat, [a] => execute1 op a
  | 2%nat, [a; b] => execute2 op a b
  | _, _ => Raise (Exc TypeError Builtin)
  end.

(** ** [infix_to_rpn] *)

(** The loop of the [CloseParen] and [CloseBracket] branches:
    [while not isinstance(operators[-1], Open): yield operators.pop()].  The
    operator stack has its top at the head.  [operators[-1]] on the empty list
    raises [IndexError]. *)
Fixpoint pop_until (is_open : Token -> bool) (operators : list Token)
    : result (list Token * list Token) :=
  match operators with
  | [] => Raise (Exc IndexError Builtin)
  | top :: rest =>
      if is_open top then Return ([], operators)
      else '(ys, ops) ← pop_until is_open rest; Return (top :: ys, ops)
  end.

Definition is_OpenParen (t : Token) : bool :=
  match t with OpenParen => true | _ => false end.
Definition is_OpenBracket (t : Token) : bool :=
  match t with OpenBracket => true | _ => false end.
Definition is_Parenthesis (t : Token) : bool :=
  match t with OpenParen | CloseParen => true | _ => false end.
Definition is_Bracket (t : Token) : bool :=
  match t with OpenBracket | CloseBracket => true | _ => false end.

(** [if operators and isinstance(operators[-1], Open): operators.pop()] *)
Definition pop_if (is_open : Token -> bool) (operators : list Token) : list Token :=
  match operators with
  | top :: rest => if is_open top then rest else operators
  | [] => operators
  end.

(** The last conjunct of the loop test in the [OperatorToken] branch:
    [top.op.priority < t.op.priority or (top.op.priority == t.op.priority
    and top.op.left_associative)]. *)
Definition yields_to (t top_op : Operator) : bool :=
  (priority top_op <? priority t)
  || ((priority top_op =? priority t) && left_associative top_op).

(** The loop of the [OperatorToken] branch.  Only an [OperatorToken] has
    the attribute [op]; reading it from any other token raises
    [AttributeError]. *)
Fixpoint pop_operators (t : Operator) (operators : list Token)
    : result (list Token * list Token) :=
  match operators with
  | [] => Return ([], operators)
  | top :: rest =>
      if is_OpenParen top then Return ([], operators)
      else
        match top with
        | OperatorToken top_op =>
            if yields_to t top_op
            then '(ys, ops) ← pop_operators t rest; Return (top :: ys, ops)
            else Return ([], operators)
        | _ => Raise (Exc AttributeError Builtin)
        end
  end.

(** One turn of the [for token in tokens] loop: the tokens yielded and the
    new operator stack. *)
Definition rpn_step (tok : Token) (operators : list Token)
    : result (list Token * list Token) :=
  match tok with
  | OpenParen => Return ([], tok :: operators)
  | OpenBracket => Return ([], tok :: operators)
  | CloseParen =>
      '(ys, ops) ← pop_until is_OpenParen operators;
      Return (ys, pop_if is_OpenParen ops)
  | CloseBracket =>
      '(ys, ops) ← pop_until is_OpenBracket operators;
      Return (ys ++ [OperatorToken GETITEM], pop_if is_OpenBracket ops)
  | OperatorToken t =>
      '(ys, ops) ← pop_operators t operators;
      Return (ys, tok :: ops)
  | _ => Return ([tok], operators)
  end.

(** The final [while operators] loop. *)
Fixpoint rpn_finish (operators : list Token) : result (list Token) :=
  match operators with
  | [] => Return []
  | top :: rest =>
      if is_Parenthesis top then Raise (Exc RuntimeError (Msg "Mismatched parenthesis"))
      else if is_Bracket top then Raise (Exc RuntimeError (Msg "Mismatched brackets"))
      else ys ← rpn_finish rest; Return (top :: ys)
  end.

Fixpoint rpn_loop (tokens operators : list Token) : result (list Token) :=
  match tokens with
  | [] => rpn_finish operators
  | tok :: tokens' =>
      '(ys, ops) ← rpn_step tok operators;
      rest ← rpn_loop tokens' ops;
      Return (ys ++ rest)
  end.

(** [infix_to_rpn(tokens)], run to its end. *)
Definition infix_to_rpn (tokens : list Token) : result (list Token) :=
  rpn_loop tokens [].

(** ** [collect_keys] *)

(** The keys of a mapping and, through the values that are mappings
    themselves, of every mapping nested in it.  The [for] loop over
    [d.items()] is a fold that adds [k] and, for a value that is a mapping,
    the keys of the recursive call; [collect_keys_in v] is the call on a
    value [v] that is a mapping. *)
Fixpoint collect_keys_in (v : pyvalue) : gset string :=
  match v with
  | VDict d =>
      map_fold (fun k v' (keys : gset string) =>
                  match v' with
                  | VDict _ => ({[k]} ∪ keys) ∪ collect_keys_in v'
                  | _ => {[k]} ∪ keys
                  end) ∅ d
  | _ => ∅
  end.

Definition collect_keys (d : gmap string pyvalue) : gset string :=
  collect_keys_in (VDict d).

(** ** class [Expression] *)

Record Expression := { tokens : list Token }.

(** [parse]: [Expression.__init__] drains the generator [infix_to_rpn], which
    draws its tokens one at a time from the tokenizer, so the first failure of
    either ends the parse. *)
Fixpoint parse_loop (fuel : nat) (tk : Tokenizer) (operators : list Token)
    : result (list Token) :=
  match fuel with
  | O => OutOfFuel
  | S fuel' =>
      '(ret, tk) ← next tk;
      match ret with
      | None => rpn_finish operators
      | Some tok =>
          '(ys, ops) ← rpn_step tok operators;
          rest ← parse_loop fuel' tk ops;
          Return (ys ++ rest)
      end
  end.

Definition parse (expression_str : string) : result Expression :=
  rpn ← parse_loop (S (String.length expression_str)) (Tokenizer_init expression_str) [];
  Return {| tokens := rpn |}.

(** Python's slices [l[-k:]] and [l[:-k]] for [0 <= k]; [-0] is [0]. *)
Definition slice_last {A} (k : nat) (l : list A) : list A :=
  match k with
  | O => l
  | _ => drop (length l - k) l
  end.

Definition slice_but_last {A} (k : nat) (l : list A) : list A :=
  match k with
  | O => []
  | _ => take (length l - k) l
  end.

(** [Expression.get_value] *)
Definition get_value (tok : pyvalue) (assignments : gmap string pyvalue) : result pyvalue :=
  match tok with
  | VNone => Return VNone
  | VToken (IntegerToken _ value) => Return (VInt value)
  | VToken (IdentifierToken name) =>
      match assignments !! name with
      | None => Raise (Exc KeyError (Msg ("Unknown identifier " +:+ name)))
      | Some v => Return v
      end
  | _ => Return tok
  end.

(** [Expression.to_str]: the stack holds what [str] makes of each entry.
    A parenthesis or bracket token is shown by its [__repr__]. *)
Definition to_str_step (values : list string) (t : Token) : result (list string) :=
  match t with
  | OperatorToken op =>
      let args := slice_last (arity op) values in
      let values := slice_but_last (arity op) values in
      if negb (bool_decide (length args = arity op)) then
        Raise (Exc NotImplementedError Arity_rendering)
      else
        match arity op, args with
        | 2%nat, [a2; a1] => Return (values ++ ["(" +:+ a2 +:+ token op +:+ a1 +:+ ")"])
        | 1%nat, [a1] =>
            if left_associative op then Return (values ++ [a1 +:+ token op])
            else Return (values ++ [token op +:+ a1])
        | _, _ => Return values
        end
  | IdentifierToken name => Return (values ++ [name])
  | IntegerToken _ value => Return (values ++ [pretty value])
  | OpenParen => Return (values ++ ["OpenParen()"])
  | CloseParen => Return (values ++ ["CloseParen()"])
  | OpenBracket => Return (values ++ ["OpenBracket()"])
  | CloseBracket => Return (values ++ ["CloseBracket()"])
  end.

Fixpoint to_str_loop (values : list string) (ts : list Token) : result (list string) :=
  match ts with
  | [] => Return values
  | t :: ts' => values ← to_str_step values t; to_str_loop values ts'
  end.

Definition to_str (e : Expression) : result string :=
  values ← to_str_loop [] (tokens e); Return (foldr String.append "" values).

(** The inner loop of [interpret],
    [for expand, v in zip(t.op.expand, values[-t.op.arity:])]: it builds
    [args] and remembers the last argument that is an exception object. *)
Fixpoint collect_args (assignments : gmap string pyvalue) (zs : list (bool * pyvalue))
    (args : list pyvalue) (exception : option PyExc)
    : result (list pyvalue * option PyExc) :=
  match zs with
  | [] => Return (args, exception)
  | (ex, v) :: zs' =>
      a ← (if ex : bool then get_value v assignments else Return v);
      collect_args assignments zs' (args ++ [a])
        (match a with VExc e => Some e | _ => exception end)
  end.

(** The [try] around [execute] for [GETITEM] and [MEMBER_ACCESS]: the new
    top of the stack.  The [KeyError] handler renders [values[-2]] and
    [values[-1]]. *)
Definition execute_guarded (op : Operator) (args values : list pyvalue) : result pyvalue :=
  match execute op args with
  | Return r => Return r
  | Raise (Exc KeyError _) =>
      if (length values <? 2)%nat then Raise (Exc IndexError Builtin)
      else Return (VExc (Exc KeyError Subscript_rendering))
  | Raise e => Return (VExc e)
  | OutOfFuel => OutOfFuel
  end.

(** One turn of [for t in self.tokens]. *)
Definition interpret_step (assignments : gmap string pyvalue) (values : list pyvalue)
    (t : Token) : result (list pyvalue) :=
  match t with
  | OperatorToken op =>
      '(args, exception) ←
        collect_args assignments (zip (expand op) (slice_last (arity op) values)) [] None;
      match (if bool_decide (op = TERNARY_ELSE) then None else exception) with
      | Some e => Return (slice_but_last (arity op) values ++ [VExc e])
      | None =>
          r ← (if bool_decide (op = GETITEM) || bool_decide (op = MEMBER_ACCESS)
               then execute_guarded op args values
               else execute op args);
          let values := slice_but_last (arity op) values ++ [r] in
          if bool_decide (op = TERNARY_CONDITIONAL) then
            match last values with
            | Some top =>
                top' ← get_value top assignments;
                Return (slice_but_last 1 values ++ [top'])
            | None => Raise (Exc IndexError Builtin)
            end
          else Return values
      end
  | _ => Return (values ++ [VToken t])
  end.

Fixpoint interpret_loop (assignments : gmap string pyvalue) (values : list pyvalue)
    (ts : list Token) : result (list pyvalue) :=
  match ts with
  | [] => Return values
  | t :: ts' =>
      values ← interpret_step assignments values t;
      interpret_loop assignments values ts'
  end.

(** The end of [interpret], from [if len(values) != 1]. *)
Definition interpret_finish (assignments : gmap string pyvalue) (values : list pyvalue)
    : result pyvalue :=
  match values with
  | [v] =>
      ret ← match v with
            | VToken (IdentifierToken _) => get_value v assignments
            | _ => Return v
            end;
      match ret with
      | VExc e => Raise e
      | _ => Return ret
      end
  | _ => Raise (Exc RuntimeError Extra_tokens_rendering)
  end.

(** [Expression.interpret].  The argument of the first [log.debug] calls
    [to_str], which can raise. *)
Definition interpret (e : Expression) (assignments : gmap string pyvalue) : result pyvalue :=
  _ ← to_str e;
  values ← interpret_loop assignments [] (tokens e);
  interpret_finish assignments values.

(** [parse(s).interpret(assignments)] *)
Definition parse_interpret (s : string) (assignments : gmap string pyvalue) : result pyvalue :=
  e ← parse s; interpret e assignments.

(** * Properties *)

(** ** Vocabulary of the statements *)

(** The assignments of the driver at the end of the module. *)
Definition driver_assignments : gmap string pyvalue :=
  {[ "sampling_factors" := VInt 1234;
     "thumbnail_x" := VInt 5;
     "thumbnail_y" := VInt 7;
     "marker" := VInt 1;
     "marker_enum" := VDict {[ "soi" := VInt 0; "eoi" := VInt 3 ]} ]}.

(** [a = b'ab'], [b = b'c'] *)
Definition ab_c : gmap string pyvalue :=
  {[ "a" := VBytes [Byte.x61; Byte.x62]; "b" := VBytes [Byte.x63] ]}.

(** [KeyError(f'Unknown identifier {name}')] *)
Definition unknown_identifier (name : string) : PyExc :=
  Exc KeyError (Msg ("Unknown identifier " +:+ name)).

(** Text made of spaces and tabs only. *)
Fixpoint all_blank (s : string) : bool :=
  match s with
  | EmptyString => true
  | String ch s' =>
      (bool_decide (ch = " "%char) || bool_decide (ch = "009"%char)) && all_blank s'
  end.

(** The part of a tokenizer that [next] alone may change. *)
Definition same_context (tk tk' : Tokenizer) : Prop :=
  prev_token tk' = prev_token tk /\ _next_token tk' = _next_token tk.

(** Every key of a table of operators is the token of its operator. *)
Definition table_ok (d : gmap string Operator) : Prop :=
  forall k op, d !! k = Some op -> token op = k.

(** A stack on which the loop stops without reading a bracket. *)
Definition stops_popping (t : Operator) (operators : list Token) : Prop :=
  match operators with
  | [] => True
  | OpenParen :: _ => True
  | OperatorToken top_op :: _ => yields_to t top_op = false
  | _ => False
  end.

(** A result that is not the running out of fuel. *)
Definition in_fuel {A} (r : result A) : Prop := r <> OutOfFuel.

(** What the loop of [peek] guarantees about its outcome. *)
Definition peek_loop_post (operand : option string) (tk : Tokenizer)
    (out : result (option Token * option string * Tokenizer)) : Prop :=
  match out with
  | OutOfFuel => False
  | Raise _ => True
  | Return (r, o', tk') =>
      (remaining tk' <= remaining tk)%nat
      /\ (operand = None -> is_Some o' -> (remaining tk' < remaining tk)%nat)
      /\ (forall t, r = Some t ->
            o' = None /\ (1 <= Token_len t <= String.length (_buffer tk'))%nat)
  end.

(** What [peek] guarantees when no token is cached: it ends, it never gives
    characters back, and a token costs at least one character. *)
Definition peek_post (tk : Tokenizer) (out : result (option Token * Tokenizer)) : Prop :=
  match out with
  | OutOfFuel => False
  | Raise _ => True
  | Return (r, tk') =>
      (remaining tk' <= remaining tk)%nat
      /\ (is_Some r -> (remaining tk' < remaining tk)%nat)
      /\ _next_token tk' = None
  end.

(** Classes of tokens. *)
Definition is_operand (t : Token) : bool :=
  match t with IdentifierToken _ | IntegerToken _ _ => true | _ => false end.
Definition is_CloseParen (t : Token) : bool :=
  match t with CloseParen => true | _ => false end.
Definition is_CloseBracket (t : Token) : bool :=
  match t with CloseBracket => true | _ => false end.
(** An operand or an operator: a token that is no delimiter. *)
Definition is_plain (t : Token) : bool := is_operand t || is_OperatorToken t.
(** A token without brackets and without closing parenthesis. *)
Definition opens_only (t : Token) : bool := is_plain t || is_OpenParen t.
(** A token that [interpret] pushes as it is. *)
Definition is_value_token (t : Token) : bool := negb (is_OperatorToken t).
Definition is_binary (t : Token) : bool :=
  match t with OperatorToken op => bool_decide (arity op = 2%nat) | _ => false end.

(** The [GETITEM] operators that [infix_to_rpn] yields, one for each closing
    bracket. *)
Definition getitems (tokens : list Token) : list Token :=
  map (fun _ => OperatorToken GETITEM) (List.filter is_CloseBracket tokens).

(** The two exceptions that [infix_to_rpn] raises by itself. *)
Definition mismatched_parenthesis : PyExc := Exc RuntimeError (Msg "Mismatched parenthesis").
Definition mismatched_brackets : PyExc := Exc RuntimeError (Msg "Mismatched brackets").

(** The failures of [parse]: of [int] in the lexer, of [operators[-1]] on an
    empty stack, of [.op] on a bracket, and the two of [infix_to_rpn]. *)
Definition parse_failure (e : PyExc) : Prop :=
  e = Exc ValueError Builtin \/ e = Exc IndexError Builtin \/ e = Exc AttributeError Builtin
  \/ e = mismatched_parenthesis \/ e = mismatched_brackets.

(** A text of characters of [IDENTIFIER_BYTES]. *)
Fixpoint all_identifier_bytes (s : string) : bool :=
  match s with
  | EmptyString => true
  | String ch s' => in_IDENTIFIER_BYTES ch && all_identifier_bytes s'
  end.

(** The first three tests of the loop of [peek] fail on the text: it does
    not start with an operator. *)
Definition starts_no_operator (s : string) : bool :=
  negb (in_OPERATORS_BY_NAME (str_take 3 s))
  && negb (in_OPERATORS_BY_NAME (str_take 2 s))
  && negb (in_OPERATORS_BY_NAME (str_take 1 s)).

(** The text still to be lexed. *)
Definition pending (tk : Tokenizer) : string := _buffer tk +:+ _stream tk.

(** The height of the stack of [interpret] and of [to_str] after a turn on
    token [t], from height [n]. *)
Definition height_after (n : nat) (t : Token) : nat :=
  match t with
  | OperatorToken op => (n - arity op + 1)%nat
  | _ => S n
  end.

(** [x op y] on two integer literals, in postfix form. *)
Definition binary_on_literals (assignments : gmap string pyvalue) (rx ry : string) (x y : Z)
    (op : Operator) : result pyvalue :=
  interpret {| tokens := [IntegerToken rx x; IntegerToken ry y; OperatorToken op] |}
    assignments.

(** ** Proof tools *)

Create HintDb fuel.
#[local] Arguments _peek_byte : simpl never.
#[local] Arguments _pop_byte : simpl never.

(** One case split on the head of the chain of tests in [peek]'s loop. *)
Ltac peek_case :=
  match goal with
  | |- (if ?b then _ else _) = _ -> _ => destruct b eqn:?
  | |- (OperatorToken_of_str ?c ≫= _) = _ -> _ =>
      destruct (OperatorToken_of_str c) eqn:?; cbn [mbind result_bind]
  end.

(** ** Basic facts about results *)

Lemma bind_Return {A B} (k : A -> result B) (r : result A) (b : B) :
  r ≫= k = Return b -> exists a, r = Return a /\ k a = Return b.
Proof. destruct r as [a|e|]; simpl; intros H; try discriminate. eauto. Qed.

Lemma ret_bind {A B} (a : A) (k : A -> result B) : Return a ≫= k = k a.
Proof. reflexivity. Qed.

Lemma interpret_loop_cons assignments values t ts :
  interpret_loop assignments values (t :: ts)
  = interpret_step assignments values t ≫= fun vs => interpret_loop assignments vs ts.
Proof. reflexivity. Qed.

Lemma interpret_loop_app assignments values ts1 ts2 :
  interpret_loop assignments values (ts1 ++ ts2)
  = interpret_loop assignments values ts1 ≫= fun vs => interpret_loop assignments vs ts2.
Proof.
  revert values. induction ts1 as [|t ts1 IH]; intros values; simpl; [reflexivity|].
  destruct (interpret_step assignments values t) as [vs|e|]; simpl; auto.
Qed.

Lemma slice_last_app {A} (l args : list A) :
  args <> [] -> slice_last (length args) (l ++ args) = args.
Proof.
  intros Hne. unfold slice_last. destruct (length args) eqn:E.
  - destruct args; [contradiction | discriminate].
  - rewrite <- E, length_app.
    replace (length l + length args - length args)%nat with (length l) by lia.
    apply drop_app_length.
Qed.

Lemma slice_but_last_app {A} (l args : list A) :
  args <> [] -> slice_but_last (length args) (l ++ args) = l.
Proof.
  intros Hne. unfold slice_but_last. destruct (length args) eqn:E.
  - destruct args; [contradiction | discriminate].
  - rewrite <- E, length_app.
    replace (length l + length args - length args)%nat with (length l) by lia.
    apply take_app_length.
Qed.

Lemma in_fuel_Return {A} (a : A) : in_fuel (Return a).
Proof. discriminate. Qed.

Lemma in_fuel_Raise {A} e : in_fuel (@Raise A e).
Proof. discriminate. Qed.

Lemma in_fuel_bind {A B} (r : result A) (k : A -> result B) :
  in_fuel r -> (forall a, r = Return a -> in_fuel (k a)) -> in_fuel (r ≫= k).
Proof.
  unfold in_fuel. destruct r as [a|e|]; simpl; intros Hr Hk;
    [apply Hk; reflexivity | discriminate | destruct Hr; reflexivity].
Qed.

Lemma classify_operand_in_fuel o : in_fuel (classify_operand o).
Proof.
  unfold classify_operand, in_fuel.
  repeat match goal with
         | |- context [if ?b then _ else _] => destruct b
         | |- context [match py_int ?s ?b with _ => _ end] => destruct (py_int s b)
         end; discriminate.
Qed.

#[local] Hint Resolve in_fuel_Return in_fuel_Raise : fuel.

(** Totality goals, by the shape of the code. *)
Ltac fuel_step :=
  first
    [ apply in_fuel_Return
    | apply in_fuel_Raise
    | solve [auto with fuel]
    | apply in_fuel_bind; [|intros ? _]
    | lazymatch goal with
      | |- in_fuel (if ?b then _ else _) => destruct b
      | |- in_fuel (let '(_, _) := ?x in _) => destruct x
      | |- in_fuel (match ?x with Return _ => _ | Raise _ => _ | OutOfFuel => _ end) =>
          let H := fresh in
          assert (H : in_fuel x) by auto with fuel;
          destruct x; [ | | destruct H; reflexivity]
      | |- in_fuel (match ?x with _ => _ end) => destruct x
      end ].
Ltac fuel := repeat fuel_step.

(** ** The module's own examples, and those of the specification *)

Example driver_1 :
  parse_interpret "(sampling_factors & -0xf0) >> 4" driver_assignments = Return (VInt 65).
Proof. vm_compute. reflexivity. Qed.

Example driver_2 :
  parse_interpret "thumbnail_x * thumbnail_y * 3" driver_assignments = Return (VInt 105).
Proof. vm_compute. reflexivity. Qed.

Example driver_3 :
  parse_interpret "marker != marker_enum::soi and marker != marker_enum::eoi"
    driver_assignments = Return (VBool true).
Proof. vm_compute. reflexivity. Qed.

Example precedence_1 : parse_interpret "1 + 2 * 3" ∅ = Return (VInt 7).
Proof. vm_compute. reflexivity. Qed.

Example precedence_2 : parse_interpret "(1 + 2) * 3" ∅ = Return (VInt 9).
Proof. vm_compute. reflexivity. Qed.

Example unary_binary_1 : parse_interpret "-4 + 3" ∅ = Return (VInt (-1)).
Proof. vm_compute. reflexivity. Qed.

Example unary_binary_2 : parse_interpret "4 - -3" ∅ = Return (VInt 7).
Proof. vm_compute. reflexivity. Qed.

(** ** The lexer always ends *)

Lemma length_str_take_drop n s :
  (String.length (str_take n s) + String.length (str_drop n s) = String.length s)%nat.
Proof.
  revert s. induction n as [|n IH]; intros [|a s]; simpl; try reflexivity.
  rewrite IH. reflexivity.
Qed.

Lemma length_str_take n s : (String.length (str_take n s) <= String.length s)%nat.
Proof. pose proof (length_str_take_drop n s). lia. Qed.

Lemma length_str_append s1 s2 :
  String.length (s1 +:+ s2) = (String.length s1 + String.length s2)%nat.
Proof. induction s1 as [|a s1 IH]; simpl; [reflexivity|]. rewrite IH. reflexivity. Qed.

Lemma remaining_peek_byte n tk : remaining (snd (_peek_byte n tk)) = remaining tk.
Proof.
  unfold _peek_byte, remaining. destruct (0 <? _); simpl; [|reflexivity].
  rewrite length_str_append.
  pose proof (length_str_take_drop
                (Z.to_nat (Z.of_nat n - Z.of_nat (String.length (_buffer tk)))) (_stream tk)).
  lia.
Qed.

Lemma peek_byte_result n tk :
  fst (_peek_byte n tk) = str_take n (_buffer (snd (_peek_byte n tk))).
Proof. reflexivity. Qed.

Lemma remaining_pop_byte n tk :
  (n <= String.length (_buffer tk))%nat ->
  (remaining (snd (_pop_byte n tk)) + n = remaining tk)%nat.
Proof.
  intros Hn. unfold _pop_byte, remaining.
  destruct (Nat.ltb_spec (String.length (_buffer tk)) n) as [H|H]; [lia|]. simpl.
  pose proof (length_str_take_drop n (_buffer tk)).
  assert (String.length (str_take n (_buffer tk)) = n).
  { clear -Hn. revert Hn. generalize (_buffer tk).
    induction n as [|n IH]; intros [|a s]; simpl; intros; try lia.
    rewrite IH; lia. }
  lia.
Qed.

Lemma skip_leading_whitespace_total fuel tk :
  (remaining tk < fuel)%nat ->
  exists tk', skip_leading_whitespace fuel tk = Return tk'
              /\ (remaining tk' <= remaining tk)%nat.
Proof.
  revert tk. induction fuel as [|fuel IH]; intros tk Hfuel; [lia|].
  cbn [skip_leading_whitespace].
  pose proof (remaining_peek_byte 1 tk) as R1.
  pose proof (peek_byte_result 1 tk) as C1.
  destruct (_peek_byte 1 tk) as [c1 tk1]. cbn [fst snd] in *.
  assert (Hpop : forall tkx,
            remaining tkx = remaining tk -> (1 <= String.length (_buffer tkx))%nat ->
            exists tk', skip_leading_whitespace fuel (snd (_pop_byte 1 tkx)) = Return tk'
                        /\ (remaining tk' <= remaining tk)%nat).
  { intros tkx Hr Hb. pose proof (remaining_pop_byte 1 tkx Hb) as Hp.
    destruct (IH (snd (_pop_byte 1 tkx)) ltac:(lia)) as (tk' & -> & Hle).
    exists tk'. split; [reflexivity|lia]. }
  destruct (bool_decide (c1 = " ")) eqn:E1.
  - apply bool_decide_eq_true in E1. apply Hpop; [exact R1|].
    subst c1. destruct (_buffer tk1); [discriminate | simpl; lia].
  - pose proof (remaining_peek_byte 1 tk1) as R2.
    pose proof (peek_byte_result 1 tk1) as C2.
    destruct (_peek_byte 1 tk1) as [c2 tk2]. cbn [fst snd] in *.
    destruct (bool_decide (c2 = _)) eqn:E2.
    + apply bool_decide_eq_true in E2. apply Hpop; [lia|].
      subst c2. destruct (_buffer tk2); [discriminate | simpl; lia].
    + exists tk2. split; [reflexivity|lia].
Qed.

Lemma register_table_ok d op : table_ok d -> table_ok (register d op).
Proof.
  intros Hd k op'. unfold register. destruct (multiple_arity op); [apply Hd|].
  rewrite lookup_insert. case_decide as Hk.
  - subst k. intros [= <-]. reflexivity.
  - apply Hd.
Qed.

Lemma OPERATORS_BY_NAME_key k op : OPERATORS_BY_NAME !! k = Some op -> token op = k.
Proof.
  unfold OPERATORS_BY_NAME.
  assert (H : forall l d, table_ok d -> table_ok (foldl register d l)).
  { induction l as [|o l IH]; intros d Hd; simpl; [exact Hd|].
    apply IH, register_table_ok, Hd. }
  apply H. intros k' op' Hl. rewrite lookup_empty in Hl. discriminate.
Qed.

Lemma OperatorToken_of_str_len c t :
  OperatorToken_of_str c = Return t -> Token_len t = String.length c.
Proof.
  unfold OperatorToken_of_str. destruct (OPERATORS_BY_NAME !! c) as [op|] eqn:E; [|discriminate].
  intros [= <-]. unfold Token_len. simpl. rewrite (OPERATORS_BY_NAME_key _ _ E). reflexivity.
Qed.

Lemma OperatorToken_of_str_total c : OperatorToken_of_str c <> OutOfFuel.
Proof. unfold OperatorToken_of_str. destruct (_ !! _); discriminate. Qed.

Lemma post_found tk tk1 t :
  remaining tk1 = remaining tk ->
  (1 <= Token_len t <= String.length (_buffer tk1))%nat ->
  peek_loop_post None tk (Return (Some t, None, tk1)).
Proof.
  intros Hr Hlen. simpl. split; [lia|]. split.
  - intros _ [? ?]; discriminate.
  - intros t' [= <-]. split; [reflexivity | exact Hlen].
Qed.

Lemma post_found_of_str tk tk1 c :
  remaining tk1 = remaining tk ->
  (1 <= String.length c <= String.length (_buffer tk1))%nat ->
  peek_loop_post None tk
    (OperatorToken_of_str c ≫= fun ret => Return (Some ret, None, tk1)).
Proof.
  intros Hr Hlen. destruct (OperatorToken_of_str c) as [t|e|] eqn:E.
  - apply post_found; [exact Hr|]. rewrite (OperatorToken_of_str_len _ _ E). exact Hlen.
  - exact I.
  - exfalso. exact (OperatorToken_of_str_total _ E).
Qed.

Lemma post_break operand tk tk1 :
  remaining tk1 = remaining tk ->
  peek_loop_post operand tk (Return (None, operand, tk1)).
Proof.
  intros Hr. simpl. split; [lia|]. split.
  - intros -> [? ?]; discriminate.
  - intros t; discriminate.
Qed.

Lemma post_weaken operand o tk tk2 out :
  (remaining tk2 < remaining tk)%nat ->
  peek_loop_post (Some o) tk2 out -> peek_loop_post operand tk out.
Proof.
  intros Hr. destruct out as [[[r o'] tk']|e|]; simpl; auto.
  intros (H1 & _ & H3). split; [lia|]. split; [intros; lia | exact H3].
Qed.

Lemma peek_loop_total fuel operand tk :
  (remaining tk < fuel)%nat -> peek_loop_post operand tk (peek_loop fuel operand tk).
Proof.
  revert operand tk. induction fuel as [|fuel IH]; intros operand tk Hfuel; [lia|].
  cbn [peek_loop].
  pose proof (remaining_peek_byte 3 tk) as R1.
  pose proof (peek_byte_result 3 tk) as C1.
  destruct (_peek_byte 3 tk) as [c tk1]. cbn [fst snd] in *.
  destruct c as [|c0 c]; [apply post_break; exact R1|].
  pose proof (length_str_take 3 (_buffer tk1)) as Hc. rewrite <- C1 in Hc.
  cbn [String.length] in Hc.
  pose proof (remaining_pop_byte 1 tk1 ltac:(lia)) as Hp.
  assert (Hrec : forall o,
             peek_loop_post operand tk
               (let '(b, tk0) := _pop_byte 1 tk1 in peek_loop fuel (Some (o b)) tk0)).
  { intros o. destruct (_pop_byte 1 tk1) as [b tk2]. cbn [snd] in Hp.
    eapply post_weaken; [|apply IH]; lia. }
  destruct operand as [o|].
  - destruct (in_IDENTIFIER_BYTES c0);
      [apply (Hrec (fun b => o +:+ b)) | apply post_break; exact R1].
  - repeat match goal with
           | |- peek_loop_post _ _ (if ?b then _ else _) => destruct b
           end;
      lazymatch goal with
      | |- peek_loop_post _ _ (Return (None, _, _)) => apply post_break; exact R1
      | |- peek_loop_post _ _ (Return (Some _, _, _)) =>
          apply post_found; [exact R1 | cbn; lia]
      | |- peek_loop_post _ _ (OperatorToken_of_str _ ≫= _) =>
          apply post_found_of_str; [exact R1|]
      | |- _ => apply (Hrec (fun b => b))
      end.
    + cbn [String.length]. lia.
    + pose proof (length_str_take 2 (String c0 c)) as H2.
      cbn [str_take String.length] in *. lia.
    + cbn [String.length]. lia.
Qed.

(** ** [peek] and [next] *)

Lemma _peek_byte_context n tk :
  prev_token (snd (_peek_byte n tk)) = prev_token tk
  /\ _next_token (snd (_peek_byte n tk)) = _next_token tk.
Proof. unfold _peek_byte. destruct (0 <? _); simpl; auto. Qed.

Lemma _pop_byte_context n tk :
  prev_token (snd (_pop_byte n tk)) = prev_token tk
  /\ _next_token (snd (_pop_byte n tk)) = _next_token tk.
Proof. unfold _pop_byte. destruct (_ <? _)%nat; simpl; auto. Qed.

Lemma same_context_refl tk : same_context tk tk.
Proof. split; reflexivity. Qed.

Lemma same_context_trans tk1 tk2 tk3 :
  same_context tk1 tk2 -> same_context tk2 tk3 -> same_context tk1 tk3.
Proof. unfold same_context. intros [-> ->] [-> ->]. auto. Qed.

Lemma same_context_peek_byte n tk : same_context tk (snd (_peek_byte n tk)).
Proof. apply _peek_byte_context. Qed.

Lemma same_context_pop_byte n tk : same_context tk (snd (_pop_byte n tk)).
Proof. apply _pop_byte_context. Qed.

Lemma skip_leading_whitespace_context fuel tk tk' :
  skip_leading_whitespace fuel tk = Return tk' -> same_context tk tk'.
Proof.
  revert tk. induction fuel as [|fuel IH]; intros tk; [discriminate|].
  cbn [skip_leading_whitespace].
  pose proof (same_context_peek_byte 1 tk) as H1.
  destruct (_peek_byte 1 tk) as [c1 tk1]. simpl in H1.
  destruct (bool_decide (c1 = " ")).
  - intros H. apply IH in H.
    eapply same_context_trans; [exact H1|].
    eapply same_context_trans; [apply same_context_pop_byte | exact H].
  - pose proof (same_context_peek_byte 1 tk1) as H2.
    destruct (_peek_byte 1 tk1) as [c2 tk2]. simpl in H2.
    destruct (bool_decide _).
    + intros H. apply IH in H.
      eapply same_context_trans; [exact H1|].
      eapply same_context_trans; [exact H2|].
      eapply same_context_trans; [apply same_context_pop_byte | exact H].
    + intros [= <-]. eapply same_context_trans; eauto.
Qed.

Lemma peek_loop_context fuel operand tk ret operand' tk' :
  peek_loop fuel operand tk = Return (ret, operand', tk') -> same_context tk tk'.
Proof.
  revert operand tk. induction fuel as [|fuel IH]; intros operand tk; [discriminate|].
  cbn [peek_loop].
  pose proof (same_context_peek_byte 3 tk) as H1.
  destruct (_peek_byte 3 tk) as [c tk1]. cbn [snd] in H1.
  destruct c as [|c0 c]; [intros [= _ _ <-]; exact H1|].
  assert (Hpop : forall o, peek_loop fuel o (snd (_pop_byte 1 tk1)) = Return (ret, operand', tk')
                           -> same_context tk tk').
  { intros o H. apply IH in H.
    eapply same_context_trans; [exact H1|].
    eapply same_context_trans; [apply same_context_pop_byte | exact H]. }
  destruct operand as [o|].
  - destruct (in_IDENTIFIER_BYTES c0).
    + destruct (_pop_byte 1 tk1) as [b tk2] eqn:E. cbn [snd] in Hpop. apply Hpop.
    + intros [= _ _ <-]; exact H1.
  - repeat peek_case; try (intros [= _ _ <-]; exact H1); try discriminate.
    destruct (_pop_byte 1 tk1) as [b tk2] eqn:E. cbn [snd] in Hpop. apply Hpop.
Qed.

(** [peek] leaves the record of the previous token, and the slot
    [_next_token], as they were. *)
Lemma peek_keeps_context tk ret tk' :
  peek tk = Return (ret, tk') -> same_context tk tk'.
Proof.
  unfold peek. destruct (_next_token tk) eqn:Hn.
  - intros [= _ <-]. apply same_context_refl.
  - intros H. apply bind_Return in H as (tk1 & H1 & H).
    apply skip_leading_whitespace_context in H1.
    apply bind_Return in H as ([[r o] tk2] & H2 & H).
    apply peek_loop_context in H2.
    assert (same_context tk tk2) by (eapply same_context_trans; eauto).
    destruct o as [o|].
    + apply bind_Return in H as (t & _ & [= _ <-]). assumption.
    + destruct r as [t|]; injection H as _ <-; [|assumption].
      eapply same_context_trans; [eassumption | apply same_context_pop_byte].
Qed.

Lemma peek_total tk : _next_token tk = None -> peek_post tk (peek tk).
Proof.
  intros Hn.
  assert (Hctx : forall r tk', peek tk = Return (r, tk') -> _next_token tk' = None).
  { intros r tk' H. apply peek_keeps_context in H as [_ ->]. exact Hn. }
  revert Hctx. unfold peek. rewrite Hn.
  destruct (skip_leading_whitespace_total (S (remaining tk)) tk ltac:(lia)) as (tk1 & -> & H1).
  rewrite ret_bind.
  pose proof (peek_loop_total (S (remaining tk1)) None tk1 ltac:(lia)) as H2.
  destruct (peek_loop (S (remaining tk1)) None tk1) as [[[r o] tk2]|e|];
    [|intros; exact I|destruct H2].
  rewrite ret_bind. destruct H2 as (Hle & Hop & Hret).
  destruct o as [o|].
  - pose proof (classify_operand_in_fuel o) as Hc.
    destruct (classify_operand o) as [t|e|]; [|intros; exact I|destruct Hc; reflexivity].
    rewrite ret_bind. intros Hctx. simpl.
    specialize (Hop eq_refl (ex_intro _ o eq_refl)).
    repeat split; [lia | intros; lia | eapply Hctx; reflexivity].
  - destruct r as [t|]; intros Hctx; simpl.
    + destruct (Hret t eq_refl) as [_ Hlen].
      pose proof (remaining_pop_byte (Token_len t) tk2 ltac:(lia)) as Hp.
      repeat split; [lia | intros; lia | eapply Hctx; reflexivity].
    + repeat split; [lia | intros [? ?]; discriminate | eapply Hctx; reflexivity].
Qed.

Lemma next_total tk : _next_token tk = None -> peek_post tk (next tk).
Proof.
  intros Hn. unfold next. pose proof (peek_total tk Hn) as H.
  destruct (peek tk) as [[r tk']|e|]; simpl in *; auto.
  destruct H as (H1 & H2 & H3). auto.
Qed.

Lemma iter_loop_total fuel tk :
  _next_token tk = None -> (remaining tk < fuel)%nat -> in_fuel (iter_loop fuel tk).
Proof.
  revert tk. induction fuel as [|fuel IH]; intros tk Hn Hfuel; [lia|].
  cbn [iter_loop]. pose proof (next_total tk Hn) as H.
  destruct (next tk) as [[r tk']|e|]; [|discriminate|destruct H].
  rewrite ret_bind. destruct H as (H1 & H2 & H3).
  destruct r as [t|]; [|discriminate].
  apply in_fuel_bind; [|intros; discriminate].
  apply IH; [exact H3|]. specialize (H2 (ex_intro _ t eq_refl)). lia.
Qed.

Theorem tokenize_total s : in_fuel (tokenize s).
Proof. apply iter_loop_total; [reflexivity | unfold remaining; simpl; lia]. Qed.

Lemma pop_until_in_fuel is_open ops : in_fuel (pop_until is_open ops).
Proof.
  induction ops as [|top rest IH]; simpl; [discriminate|].
  destruct (is_open top); [discriminate|].
  apply in_fuel_bind; [exact IH|]. intros [ys ops'] _. discriminate.
Qed.

Lemma pop_operators_in_fuel t ops : in_fuel (pop_operators t ops).
Proof.
  induction ops as [|top rest IH]; simpl; [discriminate|].
  destruct (is_OpenParen top); [discriminate|].
  destruct top; try discriminate.
  destruct (yields_to t op); [|discriminate].
  apply in_fuel_bind; [exact IH|]. intros [ys ops'] _. discriminate.
Qed.

Lemma rpn_step_in_fuel tok ops : in_fuel (rpn_step tok ops).
Proof.
  destruct tok; simpl; try discriminate;
    (apply in_fuel_bind;
     [first [apply pop_until_in_fuel | apply pop_operators_in_fuel]
     | intros [ys ops'] _; discriminate]).
Qed.

Lemma rpn_finish_in_fuel ops : in_fuel (rpn_finish ops).
Proof.
  induction ops as [|top rest IH]; simpl; [discriminate|].
  destruct (is_Parenthesis top); [discriminate|].
  destruct (is_Bracket top); [discriminate|].
  apply in_fuel_bind; [exact IH|]. intros; discriminate.
Qed.

Lemma parse_loop_total fuel tk ops :
  _next_token tk = None -> (remaining tk < fuel)%nat -> in_fuel (parse_loop fuel tk ops).
Proof.
  revert tk ops. induction fuel as [|fuel IH]; intros tk ops Hn Hfuel; [lia|].
  cbn [parse_loop]. pose proof (next_total tk Hn) as H.
  destruct (next tk) as [[r tk']|e|]; [|discriminate|destruct H].
  rewrite ret_bind. destruct H as (H1 & H2 & H3).
  destruct r as [t|]; [|apply rpn_finish_in_fuel].
  apply in_fuel_bind; [apply rpn_step_in_fuel|]. intros [ys ops'] _.
  apply in_fuel_bind; [|intros; discriminate].
  apply IH; [exact H3|]. specialize (H2 (ex_intro _ t eq_refl)). lia.
Qed.

(** [parse] is [infix_to_rpn] over the tokens of the text, whenever the
    lexer gets to the end of the text. *)
Lemma parse_loop_iter_loop fuel tk operators ts :
  iter_loop fuel tk = Return ts -> parse_loop fuel tk operators = rpn_loop ts operators.
Proof.
  revert tk operators ts. induction fuel as [|fuel IH]; intros tk operators ts; [discriminate|].
  cbn [iter_loop parse_loop].
  destruct (next tk) as [[[t|] tk']|e|]; cbn [mbind result_bind]; try discriminate.
  - destruct (iter_loop fuel tk') as [ts'|e|] eqn:E; cbn [mbind result_bind]; try discriminate.
    intros [= <-]. cbn [rpn_loop].
    destruct (rpn_step t operators) as [[ys ops]|e|]; cbn [mbind result_bind]; try reflexivity.
    rewrite (IH _ _ _ E). reflexivity.
  - intros [= <-]. reflexivity.
Qed.

Lemma parse_tokenize s ts :
  tokenize s = Return ts ->
  parse s = infix_to_rpn ts ≫= fun rpn => Return {| tokens := rpn |}.
Proof.
  intros H. unfold parse, infix_to_rpn.
  rewrite (parse_loop_iter_loop _ _ [] ts H). reflexivity.
Qed.

Theorem parse_total s : in_fuel (parse s).
Proof.
  unfold parse. apply in_fuel_bind; [|intros; discriminate].
  apply parse_loop_total; [reflexivity | unfold remaining; simpl; lia].
Qed.

(** C7.  [peek] tests [_next_token] but never assigns it, so the slot stays
    [None] and every call lexes, and consumes, one more token.  On ["1 2"]
    the first [peek] returns the literal [1], a second [peek] returns the
    literal [2], and a [next] after the first [peek] returns [2] as well:
    the peeked token [1] is lost. *)
Theorem peek_consumes_the_token :
  exists tk1 tk2 tk3,
    peek (Tokenizer_init "1 2") = Return (Some (IntegerToken "1" 1), tk1)
    /\ _next_token tk1 = None
    /\ peek tk1 = Return (Some (IntegerToken "2" 2), tk2)
    /\ next tk1 = Return (Some (IntegerToken "2" 2), tk3)
    /\ prev_token tk2 = None
    /\ prev_token tk3 = Some (IntegerToken "2" 2).
Proof.
  exists {| _stream := ""; _buffer := " 2"; _next_token := None; prev_token := None |},
         {| _stream := ""; _buffer := ""; _next_token := None; prev_token := None |},
         {| _stream := ""; _buffer := ""; _next_token := None;
            prev_token := Some (IntegerToken "2" 2) |}.
  repeat split; vm_compute; reflexivity.
Qed.

(** ** The evaluator has no loop of its own *)

Lemma bytes_of_items_in_fuel items : in_fuel (bytes_of_items items).
Proof. induction items as [|v items IH]; simpl; fuel. Qed.
#[local] Hint Resolve bytes_of_items_in_fuel : fuel.

Lemma py_bytes_in_fuel v : in_fuel (py_bytes v).
Proof. unfold py_bytes. fuel. Qed.
#[local] Hint Resolve py_bytes_in_fuel : fuel.

Lemma to_int_in_fuel v : in_fuel (to_int v).
Proof. unfold to_int. fuel. Qed.
#[local] Hint Resolve to_int_in_fuel : fuel.

Lemma py_order_in_fuel test a b : in_fuel (py_order test a b).
Proof. unfold py_order. fuel. Qed.

Lemma py_add_in_fuel a b : in_fuel (py_add a b).
Proof. unfold py_add. fuel. Qed.

Lemma py_getitem_in_fuel a b : in_fuel (py_getitem a b).
Proof. unfold py_getitem. fuel. Qed.

Lemma attr_name_in_fuel b : in_fuel (attr_name b).
Proof. unfold attr_name. fuel. Qed.
#[local] Hint Resolve py_order_in_fuel py_add_in_fuel py_getitem_in_fuel attr_name_in_fuel : fuel.

Lemma member_access_in_fuel a b : in_fuel (member_access a b).
Proof. unfold member_access. fuel. Qed.

Lemma bitwise_in_fuel f a b : in_fuel (bitwise f a b).
Proof. unfold bitwise. fuel. Qed.
#[local] Hint Resolve member_access_in_fuel bitwise_in_fuel : fuel.

Lemma execute1_in_fuel op a : in_fuel (execute1 op a).
Proof. unfold execute1. fuel. Qed.

Lemma execute2_in_fuel op a b : in_fuel (execute2 op a b).
Proof.
  unfold execute2. destruct op; fuel; unfold floordiv, remainder, lshift, rshift; fuel.
Qed.
#[local] Hint Resolve execute1_in_fuel execute2_in_fuel : fuel.

Lemma execute_in_fuel op args : in_fuel (execute op args).
Proof. unfold execute. fuel. Qed.
#[local] Hint Resolve execute_in_fuel : fuel.

Lemma get_value_in_fuel v assignments : in_fuel (get_value v assignments).
Proof. unfold get_value. fuel. Qed.
#[local] Hint Resolve get_value_in_fuel : fuel.

Lemma to_str_step_in_fuel values t : in_fuel (to_str_step values t).
Proof. unfold to_str_step. fuel. Qed.
#[local] Hint Resolve to_str_step_in_fuel : fuel.

Lemma to_str_loop_in_fuel ts : forall values, in_fuel (to_str_loop values ts).
Proof. induction ts as [|t ts IH]; intros values; simpl; fuel. Qed.
#[local] Hint Resolve to_str_loop_in_fuel : fuel.

Lemma collect_args_in_fuel assignments zs :
  forall args exception, in_fuel (collect_args assignments zs args exception).
Proof. induction zs as [|[ex v] zs IH]; intros args exception; simpl; fuel. Qed.
#[local] Hint Resolve collect_args_in_fuel : fuel.

Lemma execute_guarded_in_fuel op args values : in_fuel (execute_guarded op args values).
Proof. unfold execute_guarded. fuel. Qed.
#[local] Hint Resolve execute_guarded_in_fuel : fuel.

Lemma interpret_step_in_fuel assignments values t :
  in_fuel (interpret_step assignments values t).
Proof. unfold interpret_step. fuel. Qed.
#[local] Hint Resolve interpret_step_in_fuel : fuel.

Lemma interpret_loop_in_fuel assignments ts :
  forall values, in_fuel (interpret_loop assignments values ts).
Proof. induction ts as [|t ts IH]; intros values; simpl; fuel. Qed.
#[local] Hint Resolve interpret_loop_in_fuel : fuel.

Lemma interpret_finish_in_fuel assignments values :
  in_fuel (interpret_finish assignments values).
Proof. unfold interpret_finish. fuel. Qed.
#[local] Hint Resolve interpret_finish_in_fuel : fuel.

Theorem interpret_total e assignments : in_fuel (interpret e assignments).
Proof. unfold interpret, to_str. fuel. Qed.

Theorem parse_interpret_total s assignments : in_fuel (parse_interpret s assignments).
Proof.
  unfold parse_interpret. apply in_fuel_bind; [apply parse_total|].
  intros e _. apply interpret_total.
Qed.

(** ** [get_value] *)

(** [get_value] returns, or raises for an identifier that has no assignment. *)
Lemma get_value_cases assignments v :
  (exists r, get_value v assignments = Return r)
  \/ (exists name, v = VToken (IdentifierToken name) /\ assignments !! name = None
                   /\ get_value v assignments = Raise (unknown_identifier name)).
Proof.
  destruct v as [| | | | | | |t|]; simpl; eauto.
  destruct t; simpl; eauto.
  destruct (assignments !! name) eqn:E; eauto 10.
Qed.

Lemma collect_args_unknown assignments zs args exception name :
  (true, VToken (IdentifierToken name)) ∈ zs ->
  assignments !! name = None ->
  exists name', assignments !! name' = None
    /\ collect_args assignments zs args exception = Raise (unknown_identifier name').
Proof.
  intros Hin Hname. revert args exception.
  induction zs as [|[ex v] zs IH]; intros args exception.
  - inversion Hin.
  - simpl. destruct ex.
    + destruct (get_value_cases assignments v) as [[r Hr]|(n & -> & Hn & Hr)].
      * rewrite Hr. simpl.
        apply elem_of_cons in Hin as [Heq|Hin].
        { injection Heq as <-. simpl in Hr. rewrite Hname in Hr. discriminate. }
        apply IH. exact Hin.
      * rewrite Hr. simpl. eauto.
    + simpl. apply elem_of_cons in Hin as [Heq|Hin]; [discriminate|].
      apply IH. exact Hin.
Qed.

(** ** Lookup failures inside operators *)

Section member_lookup.
Variable assignments : gmap string pyvalue.
Variables (x name : string) (d : gmap string pyvalue) (values : list pyvalue).
Hypothesis x_bound : assignments !! x = Some (VDict d).
Hypothesis name_missing : d !! name = None.

(** [x::name] for a mapping [x] without the member [name]: the [KeyError]
    of the lookup is raised. *)
Lemma enum_accessor_missing_member :
  interpret_step assignments
    (values ++ [VToken (IdentifierToken x); VToken (IdentifierToken name)])
    (OperatorToken ENUM_ACCESSOR)
  = Raise (Exc KeyError (Key name)).
Proof.
  unfold interpret_step.
  change (arity ENUM_ACCESSOR)
    with (length [VToken (IdentifierToken x); VToken (IdentifierToken name)]).
  rewrite slice_last_app by discriminate.
  simpl. rewrite x_bound. simpl. unfold execute. simpl. rewrite name_missing. reflexivity.
Qed.

(** [x.name] for the same mapping: the [KeyError] is caught and stored. *)
Lemma member_access_missing_member :
  interpret_step assignments
    (values ++ [VToken (IdentifierToken x); VToken (IdentifierToken name)])
    (OperatorToken MEMBER_ACCESS)
  = Return (values ++ [VExc (Exc KeyError Subscript_rendering)]).
Proof.
  unfold interpret_step.
  change (arity MEMBER_ACCESS)
    with (length [VToken (IdentifierToken x); VToken (IdentifierToken name)]).
  rewrite slice_last_app, slice_but_last_app by discriminate.
  simpl. rewrite x_bound. simpl. unfold execute_guarded, execute. simpl.
  unfold member_access. simpl. rewrite name_missing. simpl.
  rewrite length_app. simpl.
  destruct (Nat.ltb_spec (length values + 2) 2); [lia | reflexivity].
Qed.
End member_lookup.

(** A failing [.] in the branch that the ternary does not select is stored as
    a deferred error and dropped with the branch. *)
Example member_access_failure_deferred :
  parse_interpret "1 ? 2 : x.missing" {[ "x" := VDict ∅ ]} = Return (VInt 2).
Proof. vm_compute. reflexivity. Qed.

(** C1.  With [x] bound to an empty mapping, [parse("1 ? 2 : x::missing")]
    yields the postfix sequence [1 2 x missing :: : ?], and interpreting it
    raises [KeyError('missing')]: [ENUM_ACCESSOR] is executed outside the
    [try] that guards [GETITEM] and [MEMBER_ACCESS], so the failed lookup is
    raised at once and the ternary never gets to select [2]. *)
Theorem enum_accessor_failure_is_raised :
  parse "1 ? 2 : x::missing"
  = Return {| tokens := [ IntegerToken "1" 1; IntegerToken "2" 2;
                          IdentifierToken "x"; IdentifierToken "missing";
                          OperatorToken ENUM_ACCESSOR; OperatorToken TERNARY_ELSE;
                          OperatorToken TERNARY_CONDITIONAL ] |}
  /\ parse_interpret "1 ? 2 : x::missing" {[ "x" := VDict ∅ ]}
     = Raise (Exc KeyError (Key "missing")).
Proof. split; vm_compute; reflexivity. Qed.

(** ** Unknown identifiers *)

(** C2.  An unknown identifier is not deferred.  [parse("1 ? 2 : y + 1")]
    yields the postfix sequence [1 2 y 1 + : ?]: the ternary selects [2] and
    drops the sub-result of [y + 1], so a deferred error would be dropped
    with it and [interpret] would return [2].  Instead the turn of [+] looks
    [y] up through [get_value], whose [KeyError] is raised outside any [try]
    and leaves [interpret] at once.  The lookup failure of the sibling [.] is
    stored and dropped with the branch: [1 ? 2 : x.missing + 1] returns
    [2]. *)
Theorem unknown_identifier_in_discarded_branch :
  parse "1 ? 2 : y + 1"
  = Return {| tokens := [ IntegerToken "1" 1; IntegerToken "2" 2; IdentifierToken "y";
                          IntegerToken "1" 1; OperatorToken ADDITION;
                          OperatorToken TERNARY_ELSE; OperatorToken TERNARY_CONDITIONAL ] |}
  /\ parse_interpret "1 ? 2 : y + 1" ∅ = Raise (unknown_identifier "y")
  /\ interpret_step ∅ [VToken (IntegerToken "1" 1); VToken (IntegerToken "2" 2);
                       VToken (IdentifierToken "y"); VToken (IntegerToken "1" 1)]
       (OperatorToken ADDITION)
     = Raise (unknown_identifier "y")
  /\ parse_interpret "1 ? 2 : x.missing + 1" {[ "x" := VDict ∅ ]} = Return (VInt 2).
Proof. repeat split; vm_compute; reflexivity. Qed.

Section unknown_identifiers.
Variable assignments : gmap string pyvalue.
Variable name : string.
Hypothesis name_unknown : assignments !! name = None.

Lemma interpret_step_unknown op values :
  (true, VToken (IdentifierToken name)) ∈ zip (expand op) (slice_last (arity op) values) ->
  exists name', assignments !! name' = None
    /\ interpret_step assignments values (OperatorToken op) = Raise (unknown_identifier name').
Proof.
  intros Hin. unfold interpret_step.
  destruct (collect_args_unknown assignments _ [] None name Hin name_unknown)
    as (name' & Hn & ->).
  exists name'. split; [exact Hn | reflexivity].
Qed.

(** A bare identifier that the ternary does not select is never looked up. *)
Lemma bare_identifier_not_selected raw_c c raw_v v :
  c <> 0 ->
  interpret {| tokens := [ IntegerToken raw_c c; IntegerToken raw_v v;
                           IdentifierToken name; OperatorToken TERNARY_ELSE;
                           OperatorToken TERNARY_CONDITIONAL ] |} assignments
  = Return (VInt v).
Proof.
  intros Hc. apply Z.eqb_neq in Hc.
  unfold interpret. simpl. unfold execute. simpl. rewrite Hc. reflexivity.
Qed.

(** The same on every expression that [to_str] accepts: when an operator
    finds, at an operand position whose expand policy is "expand", an
    identifier that has no assignment, the lookup raises
    [KeyError('Unknown identifier ...')] there and then; nothing is stored on
    the value stack, and [interpret] raises whatever the tokens after the
    operator do, a ternary selection included.  The same identifier standing
    bare as the unselected branch of a ternary is never looked up. *)
Lemma unknown_identifier_raised_at_once pre op post values text :
  to_str {| tokens := pre ++ OperatorToken op :: post |} = Return text ->
  interpret_loop assignments [] pre = Return values ->
  (true, VToken (IdentifierToken name)) ∈ zip (expand op) (slice_last (arity op) values) ->
  (exists name', assignments !! name' = None
     /\ interpret {| tokens := pre ++ OperatorToken op :: post |} assignments
        = Raise (unknown_identifier name'))
  /\ (forall raw_c c raw_v v, c <> 0 ->
        interpret {| tokens := [ IntegerToken raw_c c; IntegerToken raw_v v;
                                 IdentifierToken name; OperatorToken TERNARY_ELSE;
                                 OperatorToken TERNARY_CONDITIONAL ] |} assignments
        = Return (VInt v)).
Proof.
  intros Hstr Hpre Hin. split.
  - destruct (interpret_step_unknown op values Hin) as (name' & Hn & Hstep).
    exists name'. split; [exact Hn|].
    unfold interpret. rewrite Hstr. simpl.
    rewrite interpret_loop_app, Hpre, ret_bind, interpret_loop_cons, Hstep.
    reflexivity.
  - intros. by apply bare_identifier_not_selected.
Qed.

End unknown_identifiers.

Lemma unknown_identifier_raised_at_once_witness :
  (exists name', (∅ : gmap string pyvalue) !! name' = None
     /\ parse_interpret "1 ? 2 : y + 1" ∅ = Raise (unknown_identifier name'))
  /\ parse_interpret "1 ? 2 : y" ∅ = Return (VInt 2).
Proof.
  assert (Hy : (∅ : gmap string pyvalue) !! "y" = None) by (vm_compute; reflexivity).
  destruct (unknown_identifier_raised_at_once ∅ "y" Hy
              [IntegerToken "1" 1; IntegerToken "2" 2; IdentifierToken "y"; IntegerToken "1" 1]
              ADDITION
              [OperatorToken TERNARY_ELSE; OperatorToken TERNARY_CONDITIONAL]
              [VToken (IntegerToken "1" 1); VToken (IntegerToken "2" 2);
               VToken (IdentifierToken "y"); VToken (IntegerToken "1" 1)]
              "(1?(2:(y+1)))") as [H1 H2].
  - vm_compute. reflexivity.
  - vm_compute. reflexivity.
  - vm_compute. apply list_elem_of_here.
  - split; [exact H1 | exact (H2 "1" 1 "2" 2 ltac:(discriminate))].
Defined.


(** ** The operator branch of the shunting-yard converter *)

(** While the stack holds only operators and open parentheses, the loop of
    the [OperatorToken] branch stops at an open parenthesis. *)
Lemma pop_operators_stops_at_OpenParen t rest :
  pop_operators t (OpenParen :: rest) = Return ([], OpenParen :: rest).
Proof. reflexivity. Qed.

(** On a stack of operators and open parentheses the loop yields the
    operators that bind at least as tightly as [t], up to the first that does
    not or to an open parenthesis, and [t] is pushed on what is left. *)
Lemma pop_operators_run t popped rest :
  Forall (fun o => yields_to t o = true) popped ->
  stops_popping t rest ->
  pop_operators t (map OperatorToken popped ++ rest)
  = Return (map OperatorToken popped, rest).
Proof.
  intros Hpop Hstop. induction Hpop as [|o popped Ho _ IH]; simpl.
  - destruct rest as [|top rest]; [reflexivity|].
    destruct top; simpl in *; try contradiction; try reflexivity.
    rewrite Hstop. reflexivity.
  - rewrite Ho, IH. reflexivity.
Qed.

Lemma rpn_step_operator t popped rest :
  Forall (fun o => yields_to t o = true) popped ->
  stops_popping t rest ->
  rpn_step (OperatorToken t) (map OperatorToken popped ++ rest)
  = Return (map OperatorToken popped, OperatorToken t :: rest).
Proof. intros Hpop Hstop. simpl. rewrite pop_operators_run by assumption. reflexivity. Qed.

Example operator_inside_parentheses :
  parse "a * (b + c)"
  = Return {| tokens := [ IdentifierToken "a"; IdentifierToken "b"; IdentifierToken "c";
                          OperatorToken ADDITION; OperatorToken MULTIPLICATION ] |}.
Proof. vm_compute. reflexivity. Qed.

Example subscript_without_operator :
  parse "a[b]"
  = Return {| tokens := [ IdentifierToken "a"; IdentifierToken "b"; OperatorToken GETITEM ] |}.
Proof. vm_compute. reflexivity. Qed.

(** C3.  The loop of the [OperatorToken] branch tests the top of the operator
    stack for [OpenParen] only.  With an [OpenBracket] on top it goes on to
    read [operators[-1].op], which a bracket does not have, so the conversion
    raises [AttributeError]: for every operator [t] and every stack below the
    bracket, and in particular for [a[b + c]], which the lexer turns into
    [a], [[], [b], binary [+], [c], []]. *)
Theorem operator_after_open_bracket_raises :
  (forall t rest, pop_operators t (OpenBracket :: rest) = Raise (Exc AttributeError Builtin))
  /\ tokenize "a[b + c]"
     = Return [ IdentifierToken "a"; OpenBracket; IdentifierToken "b";
                OperatorToken ADDITION; IdentifierToken "c"; CloseBracket ]
  /\ infix_to_rpn [ IdentifierToken "a"; OpenBracket; IdentifierToken "b";
                    OperatorToken ADDITION; IdentifierToken "c"; CloseBracket ]
     = Raise (Exc AttributeError Builtin)
  /\ parse "a[b + c]" = Raise (Exc AttributeError Builtin).
Proof. repeat split; vm_compute; reflexivity. Qed.

(** ** Unary and binary signs in the lexer *)

(** After a closing delimiter, an identifier or an integer the sign is the
    binary operator; after an operator and at the start it is the unary one. *)
Example sign_after_operand_or_operator :
  tokenize "(1) - 2"
  = Return [OpenParen; IntegerToken "1" 1; CloseParen; OperatorToken SUBTRACTION;
            IntegerToken "2" 2]
  /\ tokenize "a[0] + 2"
     = Return [IdentifierToken "a"; OpenBracket; IntegerToken "0" 0; CloseBracket;
               OperatorToken ADDITION; IntegerToken "2" 2]
  /\ tokenize "x - 2"
     = Return [IdentifierToken "x"; OperatorToken SUBTRACTION; IntegerToken "2" 2]
  /\ tokenize "3 + 2"
     = Return [IntegerToken "3" 3; OperatorToken ADDITION; IntegerToken "2" 2]
  /\ tokenize "2 * -3"
     = Return [IntegerToken "2" 2; OperatorToken MULTIPLICATION; OperatorToken UNARY_MINUS;
               IntegerToken "3" 3]
  /\ tokenize "+3" = Return [OperatorToken UNARY_PLUS; IntegerToken "3" 3].
Proof. repeat split; vm_compute; reflexivity. Qed.

(** C5.  The lexer takes a sign for the unary operator only when no token
    came before it or the previous token is an [OperatorToken].  [OpenParen]
    and [OpenBracket] are not operator tokens, so a sign that follows [(] or
    [[] is lexed as the binary operator: [(-4)] becomes [(], binary [-], [4],
    [)], its postfix form is [4 -], and interpreting that fails.  A sign that
    is the last character of the input is found in [OPERATORS_BY_NAME] by the
    first test of the loop and is binary too, even at the very start. *)
Theorem sign_after_open_delimiter_is_binary :
  tokenize "(-4)"
  = Return [OpenParen; OperatorToken SUBTRACTION; IntegerToken "4" 4; CloseParen]
  /\ tokenize "(+4)"
     = Return [OpenParen; OperatorToken ADDITION; IntegerToken "4" 4; CloseParen]
  /\ tokenize "a[-1]"
     = Return [IdentifierToken "a"; OpenBracket; OperatorToken SUBTRACTION;
               IntegerToken "1" 1; CloseBracket]
  /\ parse "(-4)" = Return {| tokens := [IntegerToken "4" 4; OperatorToken SUBTRACTION] |}
  /\ parse_interpret "(-4)" ∅ = Raise (Exc NotImplementedError Arity_rendering)
  /\ tokenize "-" = Return [OperatorToken SUBTRACTION].
Proof. repeat split; vm_compute; reflexivity. Qed.

(** ** Integer coercion *)

(** [to_int] on integers and byte sequences: integers pass through, bytes
    are read as a big-endian unsigned number, whatever their length. *)
Lemma to_int_int z : to_int (VInt z) = Return z.
Proof. reflexivity. Qed.

Lemma to_int_bytes_big_endian bs : to_int (VBytes bs) = Return (from_bytes_big bs).
Proof.
  destruct bs as [|b [|b' bs]]; reflexivity.
Qed.

(** C6.  Binary [+] is [lambda a, b: a + b]: unlike the other nine
    arithmetic and bitwise operators it does not pass its operands through
    [to_int].  With [a = b'ab'] and [b = b'c'], [a + b] is the byte string
    [b'abc'], where [a - b] is [0x6162 - 0x63].  [to_int] itself reads text of
    length one as a decimal numeral and raises [TypeError] for longer text,
    because [int.from_bytes] does not take a [str]. *)
Theorem addition_does_not_coerce :
  parse_interpret "a + b" ab_c = Return (VBytes [Byte.x61; Byte.x62; Byte.x63])
  /\ parse_interpret "a - b" ab_c = Return (VInt (24930 - 99))
  /\ parse_interpret "a * b" ab_c = Return (VInt (24930 * 99))
  /\ to_int (VStr "ab") = Raise (Exc TypeError Builtin)
  /\ to_int (VStr "a") = Raise (Exc ValueError Builtin)
  /\ to_int (VStr "7") = Return 7.
Proof. repeat split; vm_compute; reflexivity. Qed.

(** ** Classification of operands *)

Example unprefixed_operand_falls_back_to_identifier :
  classify_operand "12" = Return (IntegerToken "12" 12)
  /\ classify_operand "0yg" = Return (IdentifierToken "0yg")
  /\ classify_operand "4x" = Return (IdentifierToken "4x")
  /\ classify_operand "marker" = Return (IdentifierToken "marker").
Proof. repeat split; vm_compute; reflexivity. Qed.

(** The lexer fails on an operand only through a malformed prefixed
    literal. *)
Lemma classify_operand_raises o e :
  classify_operand o = Raise e ->
  e = Exc ValueError Builtin
  /\ (String.prefix "0x" o || String.prefix "0o" o || String.prefix "0b" o = true).
Proof.
  unfold classify_operand.
  destruct (String.prefix "0x" o); [destruct (py_int o 16); [discriminate|]; intros [= <-]; auto|].
  destruct (String.prefix "0o" o); [destruct (py_int o 8); [discriminate|]; intros [= <-]; auto|].
  destruct (String.prefix "0b" o); [destruct (py_int o 2); [discriminate|]; intros [= <-]; auto|].
  destruct (py_int o 10); discriminate.
Qed.

(** C8.  An operand that starts with [0x], [0o] or [0b] is handed to [int]
    with that base outside any [try]: the well-formed literals get the value
    their prefix implies, but an operand such as ["0xg"] makes [int] raise
    [ValueError], which leaves [peek] and the whole lexer; it does not become
    an identifier as operands without such a prefix do. *)
Theorem malformed_prefixed_operand_raises :
  classify_operand "0x10" = Return (IntegerToken "0x10" 16)
  /\ classify_operand "0b101" = Return (IntegerToken "0b101" 5)
  /\ classify_operand "0o17" = Return (IntegerToken "0o17" 15)
  /\ classify_operand "0xg" = Raise (Exc ValueError Builtin)
  /\ tokenize "0xg" = Raise (Exc ValueError Builtin)
  /\ parse "0xg" = Raise (Exc ValueError Builtin)
  /\ tokenize "0b2 + 1" = Raise (Exc ValueError Builtin).
Proof. repeat split; vm_compute; reflexivity. Qed.

(** ** What [interpret] returns *)

Example bare_identifier_is_resolved :
  parse_interpret "marker" driver_assignments = Return (VInt 1).
Proof. vm_compute. reflexivity. Qed.

(** C9.  At its end [interpret] resolves the remaining stack entry only when
    it is an [IdentifierToken].  An expression that is a single integer
    literal leaves an [IntegerToken] there, and [interpret] returns that token
    object, for every assignments mapping; [parse("5").interpret({})] is the
    token [IntegerToken("5", 5)], not the integer [5]. *)
Theorem bare_integer_literal_returns_its_token :
  (forall assignments raw n,
      interpret {| tokens := [IntegerToken raw n] |} assignments
      = Return (VToken (IntegerToken raw n)))
  /\ parse "5" = Return {| tokens := [IntegerToken "5" 5] |}
  /\ parse_interpret "5" ∅ = Return (VToken (IntegerToken "5" 5)).
Proof. repeat split; vm_compute; reflexivity. Qed.

(** ** Blank input *)

Lemma skip_leading_whitespace_blank s fuel n p :
  all_blank s = true ->
  (String.length s < fuel)%nat ->
  skip_leading_whitespace fuel
    {| _stream := s; _buffer := ""; _next_token := n; prev_token := p |}
  = Return {| _stream := ""; _buffer := ""; _next_token := n; prev_token := p |}.
Proof.
  revert fuel. induction s as [|ch s IH]; intros fuel Hblank Hfuel.
  - destruct fuel as [|fuel]; [simpl in Hfuel; lia|]. reflexivity.
  - destruct fuel as [|fuel]; [simpl in Hfuel; lia|].
    simpl in Hblank. apply andb_true_iff in Hblank as [Hch Hblank].
    simpl in Hfuel.
    assert (Hrec := IH fuel Hblank ltac:(lia)).
    apply orb_true_iff in Hch as [Hch|Hch]; apply bool_decide_eq_true in Hch; subst ch.
    + exact Hrec.
    + exact Hrec.
Qed.

Lemma peek_blank s p :
  all_blank s = true ->
  peek {| _stream := s; _buffer := ""; _next_token := None; prev_token := p |}
  = Return (None, {| _stream := ""; _buffer := ""; _next_token := None; prev_token := p |}).
Proof.
  intros Hblank. unfold peek. cbn [_next_token].
  rewrite skip_leading_whitespace_blank; [reflexivity | exact Hblank |].
  unfold remaining. cbn. lia.
Qed.

(** Counterexample to C10 as the specification states it, for every
    all-whitespace input: the lexer skips spaces and tabs only.  A line feed
    starts an operand, so the input that holds one line feed parses to one
    identifier token, and [interpret] raises the [KeyError] of the unknown
    identifier instead of the [RuntimeError].  Carriage return, vertical tab
    and form feed are lexed alike. *)
Lemma other_whitespace_is_an_operand :
  parse (String "010" "") = Return {| tokens := [IdentifierToken (String "010" "")] |}
  /\ parse (String "010" "") <> Return {| tokens := [] |}
  /\ interpret {| tokens := [IdentifierToken (String "010" "")] |} ∅
     = Raise (unknown_identifier (String "010" ""))
  /\ parse (String "013" "") = Return {| tokens := [IdentifierToken (String "013" "")] |}
  /\ parse (String "011" "") = Return {| tokens := [IdentifierToken (String "011" "")] |}
  /\ parse (String "012" "") = Return {| tokens := [IdentifierToken (String "012" "")] |}.
Proof. repeat split; try (vm_compute; reflexivity). vm_compute. discriminate. Qed.

(** C10, as amended.  An input made of spaces and tabs only, the empty one
    included, parses to an [Expression] without tokens, and for every
    assignments mapping [interpret] raises the [RuntimeError] of the
    [len(values) != 1] test on it: the test fires on the empty value stack
    too. *)
Theorem blank_input_is_malformed s assignments :
  all_blank s = true ->
  parse s = Return {| tokens := [] |}
  /\ interpret {| tokens := [] |} assignments = Raise (Exc RuntimeError Extra_tokens_rendering).
Proof.
  intros Hblank. split; [|reflexivity].
  unfold parse, Tokenizer_init. cbn [parse_loop]. unfold next.
  rewrite (peek_blank s None Hblank). reflexivity.
Qed.

Lemma blank_input_is_malformed_witness :
  parse "   	 " = Return {| tokens := [] |}
  /\ interpret {| tokens := [] |} ({[ "x" := VInt 1 ]} : gmap string pyvalue)
     = Raise (Exc RuntimeError Extra_tokens_rendering).
Proof. apply blank_input_is_malformed. reflexivity. Defined.

(** * Further properties of the code *)

(** ** The operator registry *)

(** X1.  [OPERATORS_BY_NAME] maps a text to an operator exactly when the text
    is that operator's token and the operator is not of multiple arity: every
    operator that [__init__] registers is found under its own token, no
    registration overwrites another, and the unary signs are not in the
    table. *)
Theorem OPERATORS_BY_NAME_registry k op :
  OPERATORS_BY_NAME !! k = Some op <-> token op = k /\ multiple_arity op = false.
Proof.
  split.
  - intros H. pose proof (OPERATORS_BY_NAME_key _ _ H) as Hk. subst k.
    split; [reflexivity|].
    destruct op; try reflexivity; vm_compute in H; discriminate.
  - intros [<- Hm]. destruct op; try discriminate; vm_compute; reflexivity.
Qed.

(** ** The lexer fails through [int] only *)

Lemma OperatorToken_of_str_found c :
  in_OPERATORS_BY_NAME c = true -> exists op, OperatorToken_of_str c = Return (OperatorToken op).
Proof.
  unfold in_OPERATORS_BY_NAME, OperatorToken_of_str. intros H.
  apply bool_decide_eq_true in H as [op ->]. eauto.
Qed.

Lemma skip_leading_whitespace_no_raise fuel tk e :
  skip_leading_whitespace fuel tk <> Raise e.
Proof.
  revert tk. induction fuel as [|fuel IH]; intros tk; [discriminate|].
  cbn [skip_leading_whitespace].
  destruct (_peek_byte 1 tk) as [c1 tk1].
  destruct (bool_decide (c1 = " ")); [apply IH|].
  destruct (_peek_byte 1 tk1) as [c2 tk2].
  destruct (bool_decide (c2 = _)); [apply IH | discriminate].
Qed.

Lemma peek_loop_no_raise fuel operand tk e :
  peek_loop fuel operand tk <> Raise e.
Proof.
  revert operand tk. induction fuel as [|fuel IH]; intros operand tk; [discriminate|].
  cbn [peek_loop].
  destruct (_peek_byte 3 tk) as [c tk1].
  destruct c as [|c0 c]; [discriminate|].
  destruct operand as [o|].
  - destruct (in_IDENTIFIER_BYTES c0); [|discriminate].
    destruct (_pop_byte 1 tk1) as [b tk2]. apply IH.
  - repeat match goal with
           | |- (if in_OPERATORS_BY_NAME ?c then _ else _) <> _ =>
               let H := fresh in
               destruct (in_OPERATORS_BY_NAME c) eqn:H;
               [try (destruct (OperatorToken_of_str_found _ H) as [? ->]; discriminate)|]
           | |- (if ?b then _ else _) <> _ => destruct b
           end; try discriminate.
    + destruct (OperatorToken_of_str_found _ H1) as [? ->]; discriminate.
    + destruct (_pop_byte 1 tk1) as [b tk2]. apply IH.
Qed.

Lemma peek_raises tk e : peek tk = Raise e -> e = Exc ValueError Builtin.
Proof.
  unfold peek. destruct (_next_token tk); [discriminate|].
  destruct (skip_leading_whitespace _ tk) as [tk1|e1|] eqn:E1; cbn [mbind result_bind];
    [| exfalso; exact (skip_leading_whitespace_no_raise _ _ _ E1) | discriminate].
  destruct (peek_loop _ None tk1) as [[[r o] tk2]|e2|] eqn:E2; cbn [mbind result_bind];
    [| exfalso; exact (peek_loop_no_raise _ _ _ _ E2) | discriminate].
  destruct o as [o|].
  - destruct (classify_operand o) as [t|e3|] eqn:E3; cbn [mbind result_bind]; try discriminate.
    intros [= <-]. apply (classify_operand_raises _ _ E3).
  - destruct r; discriminate.
Qed.

Lemma next_raises tk e : next tk = Raise e -> e = Exc ValueError Builtin.
Proof.
  unfold next. destruct (peek tk) as [[r tk']|e'|] eqn:E; cbn [mbind result_bind]; try discriminate.
  intros [= <-]. exact (peek_raises _ _ E).
Qed.




(** ** Every token costs a character *)

Lemma iter_loop_length fuel tk ts :
  _next_token tk = None ->
  iter_loop fuel tk = Return ts -> (length ts <= remaining tk)%nat.
Proof.
  revert tk ts. induction fuel as [|fuel IH]; intros tk ts Hn; [discriminate|].
  cbn [iter_loop]. pose proof (next_total tk Hn) as H.
  destruct (next tk) as [[r tk']|e|]; cbn [mbind result_bind]; try discriminate.
  destruct H as (H1 & H2 & H3).
  destruct r as [t|].
  - destruct (iter_loop fuel tk') as [ts'|e|] eqn:E; cbn [mbind result_bind]; try discriminate.
    intros [= <-]. specialize (IH _ _ H3 E). specialize (H2 (ex_intro _ t eq_refl)).
    simpl. lia.
  - intros [= <-]. simpl. lia.
Qed.

(** X3.  The lexer never yields more tokens than the text has characters:
    each call of [next] that returns a token takes at least one character
    from the stream. *)
Theorem tokenize_length s ts :
  tokenize s = Return ts -> (length ts <= String.length s)%nat.
Proof. intros H. apply iter_loop_length in H; [exact H | reflexivity]. Qed.

Lemma tokenize_length_witness :
  (length [IntegerToken "1" 1; OperatorToken ADDITION; IntegerToken "2" 2]
   <= String.length "1 + 2")%nat.
Proof. apply tokenize_length. vm_compute. reflexivity. Defined.

(** ** The loops of the lexer end *)

Lemma skip_leading_whitespace_more_fuel fuel fuel' tk :
  in_fuel (skip_leading_whitespace fuel tk) -> (fuel <= fuel')%nat ->
  skip_leading_whitespace fuel' tk = skip_leading_whitespace fuel tk.
Proof.
  revert fuel' tk. induction fuel as [|fuel IH]; intros fuel' tk H Hle;
    [destruct H; reflexivity|].
  destruct fuel' as [|fuel']; [lia|]. apply le_S_n in Hle.
  cbn [skip_leading_whitespace] in H |- *.
  destruct (_peek_byte 1 tk) as [c1 tk1].
  destruct (bool_decide (c1 = " ")); [apply IH; assumption|].
  destruct (_peek_byte 1 tk1) as [c2 tk2].
  destruct (bool_decide (c2 = _)); [apply IH; assumption | reflexivity].
Qed.

Lemma peek_loop_more_fuel fuel fuel' operand tk :
  in_fuel (peek_loop fuel operand tk) -> (fuel <= fuel')%nat ->
  peek_loop fuel' operand tk = peek_loop fuel operand tk.
Proof.
  revert fuel' operand tk. induction fuel as [|fuel IH]; intros fuel' operand tk H Hle;
    [destruct H; reflexivity|].
  destruct fuel' as [|fuel']; [lia|]. apply le_S_n in Hle.
  cbn [peek_loop] in H |- *.
  destruct (_peek_byte 3 tk) as [c tk1].
  destruct c as [|c0 c]; [reflexivity|].
  destruct operand as [o|].
  - destruct (in_IDENTIFIER_BYTES c0); [|reflexivity].
    destruct (_pop_byte 1 tk1) as [b tk2]. apply IH; assumption.
  - repeat match goal with
           | |- (if ?b then _ else _) = _ => destruct b
           end; try reflexivity.
    destruct (_pop_byte 1 tk1) as [b tk2]. apply IH; assumption.
Qed.

Lemma iter_loop_more_fuel fuel fuel' tk :
  in_fuel (iter_loop fuel tk) -> (fuel <= fuel')%nat ->
  iter_loop fuel' tk = iter_loop fuel tk.
Proof.
  revert fuel' tk. induction fuel as [|fuel IH]; intros fuel' tk H Hle;
    [destruct H; reflexivity|].
  destruct fuel' as [|fuel']; [lia|]. apply le_S_n in Hle.
  cbn [iter_loop] in H |- *.
  destruct (next tk) as [[[t|] tk']|e|]; cbn [mbind result_bind] in *; try reflexivity.
  rewrite (IH fuel'); [reflexivity | | exact Hle].
  intros E. apply H. rewrite E. reflexivity.
Qed.

Lemma parse_loop_more_fuel fuel fuel' tk operators :
  in_fuel (parse_loop fuel tk operators) -> (fuel <= fuel')%nat ->
  parse_loop fuel' tk operators = parse_loop fuel tk operators.
Proof.
  revert fuel' tk operators. induction fuel as [|fuel IH]; intros fuel' tk operators H Hle;
    [destruct H; reflexivity|].
  destruct fuel' as [|fuel']; [lia|]. apply le_S_n in Hle.
  cbn [parse_loop] in H |- *.
  destruct (next tk) as [[[t|] tk']|e|]; cbn [mbind result_bind] in *; try reflexivity.
  destruct (rpn_step t operators) as [[ys ops]|e|]; cbn [mbind result_bind] in *; try reflexivity.
  rewrite (IH fuel'); [reflexivity | | exact Hle].
  intros E. apply H. rewrite E. reflexivity.
Qed.

(** X4.  The loop of [__iter__] ends on every text: run with any bound of
    more than [len(text)] turns it gives the result of [tokenize], which is
    never the running out of turns. *)
Theorem tokenize_ends s fuel :
  (String.length s < fuel)%nat ->
  iter_loop fuel (Tokenizer_init s) = tokenize s /\ in_fuel (tokenize s).
Proof.
  intros Hfuel. split; [|apply tokenize_total].
  apply iter_loop_more_fuel; [apply tokenize_total | lia].
Qed.

Lemma tokenize_ends_witness :
  iter_loop 100 (Tokenizer_init "a + 1") = tokenize "a + 1" /\ in_fuel (tokenize "a + 1").
Proof. apply (tokenize_ends "a + 1" 100). simpl. lia. Defined.

(** ** Leading blanks *)

Lemma skip_leading_whitespace_prefix b s fuel n p :
  all_blank b = true ->
  skip_leading_whitespace (String.length b + fuel)
    {| _stream := b +:+ s; _buffer := ""; _next_token := n; prev_token := p |}
  = skip_leading_whitespace fuel
      {| _stream := s; _buffer := ""; _next_token := n; prev_token := p |}.
Proof.
  induction b as [|ch b IH]; intros Hblank; [reflexivity|].
  simpl in Hblank. apply andb_true_iff in Hblank as [Hch Hblank].
  specialize (IH Hblank).
  apply orb_true_iff in Hch as [Hch|Hch]; apply bool_decide_eq_true in Hch; subst ch;
    exact IH.
Qed.

Lemma peek_leading_blanks b s p :
  all_blank b = true ->
  peek {| _stream := b +:+ s; _buffer := ""; _next_token := None; prev_token := p |}
  = peek {| _stream := s; _buffer := ""; _next_token := None; prev_token := p |}.
Proof.
  intros Hblank. unfold peek. cbn [_next_token].
  match goal with
  | |- context [S (remaining ?tkA)] =>
      replace (S (remaining tkA)) with (String.length b + S (String.length s))%nat
        by (unfold remaining; cbn [_buffer _stream]; rewrite length_str_append; simpl; lia)
  end.
  rewrite skip_leading_whitespace_prefix by exact Hblank. reflexivity.
Qed.

Lemma tokenize_leading_blanks b s :
  all_blank b = true -> tokenize (b +:+ s) = tokenize s.
Proof.
  intros Hblank.
  unfold tokenize.
  assert (Hstep : forall fuel, iter_loop (S fuel) (Tokenizer_init (b +:+ s))
                               = iter_loop (S fuel) (Tokenizer_init s)).
  { intros fuel. cbn [iter_loop]. unfold next, Tokenizer_init.
    rewrite (peek_leading_blanks b s None Hblank). reflexivity. }
  rewrite Hstep.
  apply iter_loop_more_fuel; [apply (tokenize_total s)|].
  rewrite length_str_append. lia.
Qed.

Lemma parse_leading_blanks b s :
  all_blank b = true -> parse (b +:+ s) = parse s.
Proof.
  intros Hblank. unfold parse.
  assert (Hstep : forall fuel, parse_loop (S fuel) (Tokenizer_init (b +:+ s)) []
                               = parse_loop (S fuel) (Tokenizer_init s) []).
  { intros fuel. cbn [parse_loop]. unfold next, Tokenizer_init.
    rewrite (peek_leading_blanks b s None Hblank). reflexivity. }
  rewrite Hstep.
  rewrite (parse_loop_more_fuel (S (String.length s))); [reflexivity | |].
  - apply parse_loop_total; [reflexivity | unfold remaining; simpl; lia].
  - rewrite length_str_append. lia.
Qed.

(** X5.  Spaces and tabs in front of a text change neither its tokens nor its
    parse. *)
Theorem leading_blanks_are_ignored b s :
  all_blank b = true ->
  tokenize (b +:+ s) = tokenize s /\ parse (b +:+ s) = parse s.
Proof.
  intros Hblank. split;
    [apply tokenize_leading_blanks | apply parse_leading_blanks]; exact Hblank.
Qed.

Lemma leading_blanks_are_ignored_witness :
  tokenize ("  " +:+ "a*2") = tokenize "a*2" /\ parse ("  " +:+ "a*2") = parse "a*2".
Proof. apply (leading_blanks_are_ignored "  " "a*2"). reflexivity. Defined.

(** ** A text that is one operand *)

Lemma str_take_drop n s : str_take n s +:+ str_drop n s = s.
Proof.
  revert s. induction n as [|n IH]; intros [|a s]; try reflexivity.
  change (String a (str_take n s +:+ str_drop n s) = String a s). f_equal. apply IH.
Qed.

Lemma str_app_assoc (a b c : string) : (a +:+ b) +:+ c = a +:+ (b +:+ c).
Proof.
  induction a as [|x a IH]; [reflexivity|].
  change (String x ((a +:+ b) +:+ c) = String x (a +:+ (b +:+ c))). f_equal. exact IH.
Qed.

Lemma str_app_nil_r (a : string) : a +:+ "" = a.
Proof.
  induction a as [|x a IH]; [reflexivity|].
  change (String x (a +:+ "") = String x a). f_equal. exact IH.
Qed.

Lemma pending_peek_byte n tk : pending (snd (_peek_byte n tk)) = pending tk.
Proof.
  unfold _peek_byte, pending. destruct (0 <? _); simpl; [|reflexivity].
  rewrite str_app_assoc, str_take_drop. reflexivity.
Qed.

Lemma peek_byte_head n tk :
  (0 < n)%nat ->
  match pending tk with
  | EmptyString => fst (_peek_byte n tk) = ""
  | String ch _ => exists c, fst (_peek_byte n tk) = String ch c
                             /\ exists b, _buffer (snd (_peek_byte n tk)) = String ch b
  end.
Proof.
  intros Hn. pose proof (pending_peek_byte n tk) as Hp.
  unfold _peek_byte in *. unfold pending in *.
  destruct n as [|n]; [lia|].
  destruct (_buffer tk) as [|b0 buf] eqn:Eb.
  - simpl String.length. replace (0 <? Z.of_nat (S n) - Z.of_nat 0) with true
      by (symmetry; apply Z.ltb_lt; lia).
    cbn [fst snd _buffer set_io String.append] in *.
    replace (Z.to_nat (Z.of_nat (S n) - Z.of_nat 0)) with (S n) by lia.
    destruct (_stream tk) as [|s0 st]; simpl; [reflexivity|]. eauto.
  - destruct (0 <? _); cbn [fst snd _buffer set_io] in *; rewrite ?Eb; simpl; eauto.
Qed.

Lemma pop_byte_head ch b tk :
  _buffer tk = String ch b ->
  _pop_byte 1 tk = (String ch "", set_io tk (_stream tk) b).
Proof. intros H. unfold _pop_byte. rewrite H. reflexivity. Qed.

Lemma pending_nil tk : pending tk = "" -> _buffer tk = "" /\ _stream tk = "".
Proof.
  unfold pending. destruct (_buffer tk); [simpl; auto | discriminate].
Qed.

Lemma peek_loop_operand fuel o tk :
  all_identifier_bytes (pending tk) = true ->
  (String.length (pending tk) < fuel)%nat ->
  exists tk', peek_loop fuel (Some o) tk = Return (None, Some (o +:+ pending tk), tk')
              /\ pending tk' = "" /\ same_context tk tk'.
Proof.
  revert o tk. induction fuel as [|fuel IH]; intros o tk Hall Hfuel; [lia|].
  cbn [peek_loop].
  pose proof (pending_peek_byte 3 tk) as Hp.
  pose proof (peek_byte_head 3 tk ltac:(lia)) as Hh.
  pose proof (same_context_peek_byte 3 tk) as Hc.
  destruct (_peek_byte 3 tk) as [c tk1]. cbn [fst snd] in *.
  destruct (pending tk) as [|ch rest] eqn:E.
  - subst c. exists tk1. rewrite str_app_nil_r. auto.
  - destruct Hh as (c' & -> & b & Hb).
    cbn [all_identifier_bytes] in Hall. apply andb_true_iff in Hall as [Hch Hall].
    rewrite Hch, (pop_byte_head ch b tk1 Hb).
    assert (Hrest : pending (set_io tk1 (_stream tk1) b) = rest).
    { unfold pending in *. cbn [set_io _buffer _stream]. rewrite Hb in Hp.
      injection Hp as Hp. exact Hp. }
    destruct (IH (o +:+ String ch "") (set_io tk1 (_stream tk1) b)) as (tk' & Hl & Hn & Hc').
    + rewrite Hrest. exact Hall.
    + rewrite Hrest. simpl in Hfuel. lia.
    + exists tk'. rewrite Hl, Hrest, str_app_assoc.
      split; [reflexivity|]. split; [assumption|].
      eapply same_context_trans; [exact Hc|].
      eapply same_context_trans; [|exact Hc']. split; reflexivity.
Qed.

Lemma identifier_byte_is_no_delimiter ch :
  in_IDENTIFIER_BYTES ch = true ->
  bool_decide (ch = "("%char) = false /\ bool_decide (ch = ")"%char) = false
  /\ bool_decide (ch = "["%char) = false /\ bool_decide (ch = "]"%char) = false
  /\ bool_decide (ch = " "%char) = false /\ bool_decide (ch = "009"%char) = false.
Proof.
  intros H. repeat split; apply bool_decide_eq_false; intros ->; vm_compute in H; discriminate.
Qed.

Lemma peek_exhausted tk :
  pending tk = "" -> _next_token tk = None ->
  exists tk', peek tk = Return (None, tk') /\ pending tk' = "".
Proof.
  intros Hp Hn. destruct (pending_nil _ Hp) as [Hb Hs].
  destruct tk as [st bu nt pt]. cbn [_buffer _stream _next_token] in *. subst.
  eexists. split; [reflexivity|reflexivity].
Qed.

(** X6.  A text of characters of [IDENTIFIER_BYTES] (letters, digits, [-]
    and [_]) that does not start with an operator is lexed as one operand,
    the whole text: a [-] inside it is no subtraction.  The operand becomes
    an integer literal or an identifier, or [int] fails on it. *)
Theorem tokenize_operand s :
  s <> "" ->
  all_identifier_bytes s = true ->
  starts_no_operator s = true ->
  tokenize s = classify_operand s ≫= fun t => Return [t].
Proof.
  intros Hne Hall Hstart. destruct s as [|ch s]; [contradiction|]. clear Hne.
  cbn [all_identifier_bytes] in Hall. apply andb_true_iff in Hall as [Hch Hall].
  destruct (identifier_byte_is_no_delimiter ch Hch) as (H1 & H2 & H3 & H4 & H5 & H6).
  unfold starts_no_operator in Hstart.
  apply andb_true_iff in Hstart as [Hstart Hs1].
  apply andb_true_iff in Hstart as [Hs3 Hs2].
  apply negb_true_iff in Hs1, Hs2, Hs3.
  set (tk2 := {| _stream := s; _buffer := String ch ""; _next_token := None;
                 prev_token := None |}).
  set (tk3 := {| _stream := str_drop 2 s; _buffer := String ch (str_take 2 s);
                 _next_token := None; prev_token := None |}).
  set (tk4 := {| _stream := str_drop 2 s; _buffer := str_take 2 s;
                 _next_token := None; prev_token := None |}).
  assert (Hskip : skip_leading_whitespace (S (remaining (Tokenizer_init (String ch s))))
                    (Tokenizer_init (String ch s)) = Return tk2).
  { cbn [skip_leading_whitespace].
    change (_peek_byte 1 (Tokenizer_init (String ch s))) with (String ch "", tk2).
    cbn iota beta.
    change (_peek_byte 1 tk2) with (String ch "", tk2). cbn iota beta.
    rewrite (bool_decide_eq_false_2 (String ch "" = " "))
      by (intros [= ->]; discriminate).
    rewrite (bool_decide_eq_false_2 (String ch "" = String "009" ""))
      by (intros [= ->]; discriminate).
    reflexivity. }
  assert (Hpend : pending tk4 = s) by apply str_take_drop.
  destruct (peek_loop_operand (String.length s + 1) (String ch "") tk4) as (tk' & Hl & Hn & Hc);
    [rewrite Hpend; exact Hall | rewrite Hpend; lia |].
  assert (Hloop : peek_loop (S (remaining tk2)) None tk2
                  = Return (None, Some (String ch s), tk')).
  { cbn [peek_loop].
    change (_peek_byte 3 tk2) with (String ch (str_take 2 (str_take 2 s)), tk3).
    cbn iota beta.
    assert (Htt : forall n t, str_take n (str_take n t) = str_take n t).
    { induction n as [|n IHn]; intros [|x t]; try reflexivity. cbn [str_take]. rewrite IHn.
      reflexivity. }
    rewrite Htt.
    change (String ch (str_take 2 s)) with (str_take 3 (String ch s)) at 1 2.
    rewrite Hs3.
    replace (str_take 2 (String ch (str_take 2 s))) with (str_take 2 (String ch s))
      by (destruct s as [|x [|y s']]; reflexivity).
    rewrite Hs2.
    change (in_OPERATORS_BY_NAME (String ch ""))
      with (in_OPERATORS_BY_NAME (str_take 1 (String ch s))).
    rewrite Hs1, H1, H2, H3, H4, H5, H6. cbn [orb].
    change (_pop_byte 1 tk3) with (String ch "", tk4). cbn iota beta.
    replace (remaining tk2) with (String.length s + 1)%nat
      by (unfold remaining, tk2; simpl; lia).
    rewrite Hl, Hpend. reflexivity. }
  assert (Hpeek : peek (Tokenizer_init (String ch s))
                  = classify_operand (String ch s) ≫= fun t => Return (Some t, tk')).
  { unfold peek. change (_next_token (Tokenizer_init (String ch s))) with (@None Token).
    cbn iota. rewrite Hskip, ret_bind, Hloop, ret_bind. reflexivity. }
  unfold tokenize. cbn [String.length].
  change (iter_loop (S (S (String.length s))) (Tokenizer_init (String ch s)))
    with ('(ret, tk) ← next (Tokenizer_init (String ch s));
          match ret with
          | None => Return []
          | Some t => ts ← iter_loop (S (String.length s)) tk; Return (t :: ts)
          end).
  unfold next at 1. rewrite Hpeek.
  destruct (classify_operand (String ch s)) as [t|e|]; cbn [mbind result_bind]; try reflexivity.
  destruct (peek_exhausted {| _stream := _stream tk'; _buffer := _buffer tk';
                              _next_token := None; prev_token := Some t |})
    as (tk'' & Hpk & _); [exact Hn | reflexivity |].
  cbn [iter_loop]. unfold next. rewrite Hpk. reflexivity.
Qed.

Lemma tokenize_operand_witness : tokenize "a-b" = Return [IdentifierToken "a-b"].
Proof.
  change (tokenize "a-b" = classify_operand "a-b" ≫= fun t => Return [t]).
  apply (tokenize_operand "a-b"); [discriminate | reflexivity | vm_compute; reflexivity].
Defined.

(** ** What [infix_to_rpn] keeps *)

Lemma pop_until_split is_open operators ys ops :
  pop_until is_open operators = Return (ys, ops) -> operators = ys ++ ops.
Proof.
  revert ys ops. induction operators as [|top rest IH]; intros ys ops; simpl; [discriminate|].
  destruct (is_open top); [intros [= <- <-]; reflexivity|].
  destruct (pop_until is_open rest) as [[ys' ops']|e|]; simpl; try discriminate.
  intros [= <- <-]. rewrite (IH _ _ eq_refl). reflexivity.
Qed.

Lemma pop_operators_split t operators ys ops :
  pop_operators t operators = Return (ys, ops) ->
  operators = ys ++ ops /\ forallb is_OperatorToken ys = true.
Proof.
  revert ys ops. induction operators as [|top rest IH]; intros ys ops; simpl.
  - intros [= <- <-]. auto.
  - destruct (is_OpenParen top); [intros [= <- <-]; auto|].
    destruct top; try discriminate.
    destruct (yields_to t op); [|intros [= <- <-]; auto].
    destruct (pop_operators t rest) as [[ys' ops']|e|]; simpl; try discriminate.
    intros [= <- <-]. destruct (IH _ _ eq_refl) as [-> H]. auto.
Qed.

Lemma rpn_finish_Return operators out :
  rpn_finish operators = Return out ->
  out = operators /\ forallb (fun t => negb (is_Parenthesis t) && negb (is_Bracket t)) out = true.
Proof.
  revert out. induction operators as [|top rest IH]; intros out; simpl.
  - intros [= <-]. auto.
  - destruct (is_Parenthesis top) eqn:Ep; [discriminate|].
    destruct (is_Bracket top) eqn:Eb; [discriminate|].
    destruct (rpn_finish rest) as [ys|e|]; simpl; try discriminate.
    intros [= <-]. destruct (IH _ eq_refl) as [-> H]. simpl. rewrite Ep, Eb, H. auto.
Qed.

Lemma filter_pop_if (f : Token -> bool) is_open operators :
  (forall t, is_open t = true -> f t = false) ->
  List.filter f (pop_if is_open operators) = List.filter f operators.
Proof.
  intros Hf. destruct operators as [|top rest]; [reflexivity|]. simpl.
  destruct (is_open top) eqn:E; [|reflexivity]. rewrite (Hf _ E). reflexivity.
Qed.

(** One turn keeps, for a class [f] of tokens that are no open delimiters,
    the tokens of that class: those of the stack and the new one are found
    in what is yielded and on the new stack, plus a [GETITEM] for a closing
    bracket. *)
Lemma rpn_step_filter (f : Token -> bool) tok operators ys ops :
  f OpenParen = false -> f OpenBracket = false ->
  f CloseParen = false -> f CloseBracket = false ->
  rpn_step tok operators = Return (ys, ops) ->
  Permutation (List.filter f ys ++ List.filter f ops)
    (List.filter f [tok] ++ List.filter f operators
     ++ (if is_CloseBracket tok then List.filter f [OperatorToken GETITEM] else [])).
Proof.
  intros H1 H2 H3 H4. destruct tok; simpl.
  - intros [= <- <-]. simpl. rewrite H1. simpl. rewrite app_nil_r. reflexivity.
  - destruct (pop_until is_OpenParen operators) as [[ys' ops']|e|] eqn:E; simpl; try discriminate.
    intros [= <- <-]. apply pop_until_split in E as ->.
    rewrite H3. simpl. rewrite app_nil_r, List.filter_app.
    rewrite filter_pop_if; [reflexivity|].
    intros [] Ht; try discriminate. exact H1.
  - intros [= <- <-]. simpl. rewrite H2. simpl. rewrite app_nil_r. reflexivity.
  - destruct (pop_until is_OpenBracket operators) as [[ys' ops']|e|] eqn:E; simpl; try discriminate.
    intros [= <- <-]. apply pop_until_split in E as ->.
    rewrite H4. simpl. rewrite !List.filter_app.
    rewrite filter_pop_if; [|intros [] Ht; try discriminate; exact H2].
    rewrite <- !app_assoc. apply Permutation_app_head. apply Permutation_app_comm.
  - destruct (pop_operators op operators) as [[ys' ops']|e|] eqn:E; simpl; try discriminate.
    intros [= <- <-]. apply pop_operators_split in E as [-> _].
    rewrite app_nil_r, List.filter_app. simpl.
    destruct (f (OperatorToken op)); simpl; [|reflexivity].
    symmetry. apply Permutation_middle.
  - intros [= <- <-]. simpl. rewrite app_nil_r. reflexivity.
  - intros [= <- <-]. simpl. rewrite app_nil_r. reflexivity.
Qed.

Lemma rpn_finish_filter (f : Token -> bool) operators out :
  rpn_finish operators = Return out -> List.filter f out = List.filter f operators.
Proof. intros H. apply rpn_finish_Return in H as [-> _]. reflexivity. Qed.

Lemma rpn_loop_plain tokens operators out :
  rpn_loop tokens operators = Return out ->
  Permutation (List.filter is_plain out)
    (List.filter is_plain tokens ++ List.filter is_plain operators ++ getitems tokens).
Proof.
  revert operators out. induction tokens as [|tok tokens IH]; intros operators out; simpl.
  - intros H. rewrite (rpn_finish_filter _ _ _ H). unfold getitems. simpl.
    rewrite app_nil_r. reflexivity.
  - destruct (rpn_step tok operators) as [[ys ops]|e|] eqn:E; simpl; try discriminate.
    destruct (rpn_loop tokens ops) as [rest|e|] eqn:E'; simpl; try discriminate.
    intros [= <-]. rewrite List.filter_app.
    rewrite (IH _ _ E').
    pose proof (rpn_step_filter is_plain _ _ _ _ eq_refl eq_refl eq_refl eq_refl E) as Hp.
    rewrite (Permutation_app_comm (List.filter is_plain tokens)).
    rewrite !app_assoc. rewrite Hp.
    unfold getitems. clear Hp.
    destruct tok; simpl; rewrite ?app_nil_r; solve_Permutation.
Qed.

Lemma rpn_step_operands tok operators ys ops :
  List.filter is_operand operators = [] ->
  rpn_step tok operators = Return (ys, ops) ->
  List.filter is_operand ys = List.filter is_operand [tok]
  /\ List.filter is_operand ops = [].
Proof.
  intros Hstack H.
  assert (Hsplit : forall ys' ops', operators = ys' ++ ops' ->
            List.filter is_operand ys' = [] /\ List.filter is_operand ops' = []).
  { intros ys' ops' ->. rewrite List.filter_app in Hstack.
    apply app_eq_nil in Hstack. exact Hstack. }
  destruct tok; simpl in H.
  - injection H as <- <-. auto.
  - destruct (pop_until is_OpenParen operators) as [[ys' ops']|e|] eqn:E; simpl in H;
      try discriminate.
    injection H as <- <-. apply pop_until_split in E. destruct (Hsplit _ _ E) as [H1 H2].
    split; [exact H1|]. rewrite filter_pop_if; [exact H2|]. intros []; intros; try discriminate; reflexivity.
  - injection H as <- <-. auto.
  - destruct (pop_until is_OpenBracket operators) as [[ys' ops']|e|] eqn:E; simpl in H;
      try discriminate.
    injection H as <- <-. apply pop_until_split in E. destruct (Hsplit _ _ E) as [H1 H2].
    split; [rewrite List.filter_app, H1; reflexivity|].
    rewrite filter_pop_if; [exact H2|]. intros []; intros; try discriminate; reflexivity.
  - destruct (pop_operators op operators) as [[ys' ops']|e|] eqn:E; simpl in H;
      try discriminate.
    injection H as <- <-. apply pop_operators_split in E as [E _].
    destruct (Hsplit _ _ E) as [H1 H2]. auto.
  - injection H as <- <-. auto.
  - injection H as <- <-. auto.
Qed.

Lemma rpn_loop_operands tokens operators out :
  List.filter is_operand operators = [] ->
  rpn_loop tokens operators = Return out ->
  List.filter is_operand out = List.filter is_operand tokens.
Proof.
  revert operators out. induction tokens as [|tok tokens IH]; intros operators out Hstack.
  - simpl. intros H. rewrite (rpn_finish_filter _ _ _ H). exact Hstack.
  - cbn [rpn_loop].
    destruct (rpn_step tok operators) as [[ys ops]|e|] eqn:E; simpl; try discriminate.
    destruct (rpn_loop tokens ops) as [rest|e|] eqn:E'; simpl; try discriminate.
    intros [= <-]. destruct (rpn_step_operands _ _ _ _ Hstack E) as [H1 H2].
    rewrite List.filter_app, H1, (IH _ _ H2 E'). simpl.
    destruct (is_operand tok); reflexivity.
Qed.

(** X7.  The postfix form holds the operands of the infix form, identifiers
    and integer literals, in the same order. *)
Theorem infix_to_rpn_keeps_operand_order tokens rpn :
  infix_to_rpn tokens = Return rpn ->
  List.filter is_operand rpn = List.filter is_operand tokens.
Proof. apply rpn_loop_operands. reflexivity. Qed.

Lemma infix_to_rpn_keeps_operand_order_witness :
  List.filter is_operand
    [IdentifierToken "a"; IdentifierToken "b"; IdentifierToken "c";
     OperatorToken MULTIPLICATION; OperatorToken ADDITION]
  = List.filter is_operand
      [IdentifierToken "a"; OperatorToken ADDITION; IdentifierToken "b";
       OperatorToken MULTIPLICATION; IdentifierToken "c"].
Proof.
  apply (infix_to_rpn_keeps_operand_order
           [IdentifierToken "a"; OperatorToken ADDITION; IdentifierToken "b";
            OperatorToken MULTIPLICATION; IdentifierToken "c"]
           [IdentifierToken "a"; IdentifierToken "b"; IdentifierToken "c";
            OperatorToken MULTIPLICATION; OperatorToken ADDITION]).
  reflexivity.
Defined.

(** X8.  The operands and operators of the postfix form are those of the
    infix form and one [GETITEM] for each closing bracket, none lost and none
    added. *)
Theorem infix_to_rpn_keeps_operators tokens rpn :
  infix_to_rpn tokens = Return rpn ->
  Permutation (List.filter is_plain rpn) (List.filter is_plain tokens ++ getitems tokens).
Proof. intros H. apply rpn_loop_plain in H. exact H. Qed.

Lemma infix_to_rpn_keeps_operators_witness :
  Permutation
    (List.filter is_plain [IdentifierToken "a"; IdentifierToken "b"; OperatorToken GETITEM])
    (List.filter is_plain [IdentifierToken "a"; OpenBracket; IdentifierToken "b"; CloseBracket]
     ++ getitems [IdentifierToken "a"; OpenBracket; IdentifierToken "b"; CloseBracket]).
Proof.
  apply (infix_to_rpn_keeps_operators
           [IdentifierToken "a"; OpenBracket; IdentifierToken "b"; CloseBracket]
           [IdentifierToken "a"; IdentifierToken "b"; OperatorToken GETITEM]).
  reflexivity.
Defined.

(** ** Unbalanced delimiters *)

Lemma rpn_finish_open_paren operators :
  forallb (fun t => is_OperatorToken t || is_OpenParen t) operators = true ->
  existsb is_OpenParen operators = true ->
  rpn_finish operators = Raise mismatched_parenthesis.
Proof.
  induction operators as [|top rest IH]; simpl; [discriminate|].
  intros Hall Hex. apply andb_true_iff in Hall as [Htop Hall].
  destruct top; try discriminate; simpl in *; [reflexivity|].
  rewrite (IH Hall Hex). reflexivity.
Qed.

Lemma pop_operators_plain_stack t operators :
  forallb (fun t => is_OperatorToken t || is_OpenParen t) operators = true ->
  exists ys ops, pop_operators t operators = Return (ys, ops)
    /\ forallb (fun t => is_OperatorToken t || is_OpenParen t) ops = true
    /\ existsb is_OpenParen ops = existsb is_OpenParen operators.
Proof.
  induction operators as [|top rest IH]; simpl; [eauto|].
  intros Hall. apply andb_true_iff in Hall as [Htop Hall].
  destruct top; try discriminate; simpl in *.
  - eexists _, _. split; [reflexivity|]. simpl. auto.
  - destruct (yields_to t op).
    + destruct (IH Hall) as (ys & ops & -> & H1 & H2). simpl. eauto.
    + eexists _, _. split; [reflexivity|]. simpl. auto.
Qed.

Lemma rpn_loop_open_paren tokens operators :
  forallb opens_only tokens = true ->
  forallb (fun t => is_OperatorToken t || is_OpenParen t) operators = true ->
  existsb is_OpenParen tokens || existsb is_OpenParen operators = true ->
  rpn_loop tokens operators = Raise mismatched_parenthesis.
Proof.
  revert operators. induction tokens as [|tok tokens IH]; intros operators Htoks Hstack Hex.
  - simpl in *. apply rpn_finish_open_paren; assumption.
  - cbn [forallb existsb] in *. apply andb_true_iff in Htoks as [Htok Htoks].
    cbn [rpn_loop].
    destruct tok; try discriminate; cbn [rpn_step mbind result_bind].
    + rewrite (IH (OpenParen :: operators)); [reflexivity | assumption | exact Hstack |].
      simpl. apply orb_true_r.
    + destruct (pop_operators_plain_stack op operators Hstack) as (ys & ops & -> & H1 & H2).
      cbn [mbind result_bind].
      rewrite (IH (OperatorToken op :: ops)); [reflexivity | assumption | exact H1 |].
      simpl in *. rewrite H2. exact Hex.
    + rewrite (IH operators); [reflexivity | assumption | assumption | exact Hex].
    + rewrite (IH operators); [reflexivity | assumption | assumption | exact Hex].
Qed.

(** X9.  An open parenthesis that is never closed, in a sequence without
    brackets, makes the conversion fail with
    [RuntimeError("Mismatched parenthesis")]. *)
Theorem unclosed_parenthesis_raises tokens :
  forallb opens_only tokens = true ->
  existsb is_OpenParen tokens = true ->
  infix_to_rpn tokens = Raise mismatched_parenthesis.
Proof.
  intros Htoks Hex. apply rpn_loop_open_paren; [exact Htoks | reflexivity |].
  rewrite Hex. reflexivity.
Qed.

Lemma unclosed_parenthesis_raises_witness :
  infix_to_rpn [OpenParen; IntegerToken "1" 1; OperatorToken ADDITION; IntegerToken "2" 2]
  = Raise mismatched_parenthesis.
Proof.
  apply (unclosed_parenthesis_raises
           [OpenParen; IntegerToken "1" 1; OperatorToken ADDITION; IntegerToken "2" 2]);
    reflexivity.
Defined.

Lemma pop_until_operators is_open operators :
  forallb is_OperatorToken operators = true ->
  (forall op, is_open (OperatorToken op) = false) ->
  pop_until is_open operators = Raise (Exc IndexError Builtin).
Proof.
  intros Hall Hopen. induction operators as [|top rest IH]; simpl; [reflexivity|].
  simpl in Hall. apply andb_true_iff in Hall as [Htop Hall].
  destruct top; try discriminate. rewrite Hopen, (IH Hall). reflexivity.
Qed.

Lemma pop_operators_operators t operators :
  forallb is_OperatorToken operators = true ->
  exists ys ops, pop_operators t operators = Return (ys, ops)
    /\ forallb is_OperatorToken ops = true.
Proof.
  induction operators as [|top rest IH]; simpl; [eauto|].
  intros Hall. apply andb_true_iff in Hall as [Htop Hall].
  destruct top; try discriminate; simpl.
  destruct (yields_to t op).
  - destruct (IH Hall) as (ys & ops & -> & H1). simpl. eauto.
  - eexists _, _. split; [reflexivity|]. simpl. exact Hall.
Qed.

Lemma rpn_loop_unopened pre closing post operators :
  forallb is_plain pre = true ->
  forallb is_OperatorToken operators = true ->
  closing = CloseParen \/ closing = CloseBracket ->
  rpn_loop (pre ++ closing :: post) operators = Raise (Exc IndexError Builtin).
Proof.
  intros Hpre Hstack Hclosing. revert operators Hstack.
  induction pre as [|tok pre IH]; intros operators Hstack.
  - cbn [app rpn_loop].
    destruct Hclosing as [-> | ->]; cbn [rpn_step];
      rewrite pop_until_operators by (assumption || reflexivity); reflexivity.
  - cbn [forallb] in Hpre. apply andb_true_iff in Hpre as [Htok Hpre].
    cbn [app rpn_loop].
    destruct tok; try discriminate; cbn [rpn_step mbind result_bind].
    + destruct (pop_operators_operators op operators Hstack) as (ys & ops & -> & H1).
      cbn [mbind result_bind].
      rewrite (IH Hpre (OperatorToken op :: ops)); [reflexivity | exact H1].
    + rewrite (IH Hpre operators Hstack). reflexivity.
    + rewrite (IH Hpre operators Hstack). reflexivity.
Qed.

(** X10.  A closing parenthesis or bracket before which nothing was opened
    makes the conversion fail with the [IndexError] of [operators[-1]] on the
    emptied stack, whatever follows it: the exception that the two TODO
    comments mention. *)
Theorem unopened_closing_delimiter_raises pre closing post :
  forallb is_plain pre = true ->
  closing = CloseParen \/ closing = CloseBracket ->
  infix_to_rpn (pre ++ closing :: post) = Raise (Exc IndexError Builtin).
Proof. intros Hpre Hclosing. apply rpn_loop_unopened; auto. Qed.

Lemma unopened_closing_delimiter_raises_witness :
  infix_to_rpn ([IntegerToken "1" 1; OperatorToken ADDITION; IntegerToken "2" 2]
                ++ CloseParen :: [OperatorToken MULTIPLICATION; IntegerToken "3" 3])
  = Raise (Exc IndexError Builtin).
Proof.
  apply (unopened_closing_delimiter_raises
           [IntegerToken "1" 1; OperatorToken ADDITION; IntegerToken "2" 2] CloseParen
           [OperatorToken MULTIPLICATION; IntegerToken "3" 3]).
  - reflexivity.
  - left. reflexivity.
Defined.

(** X11.  Of two operators between three operands, the first is applied
    first when its priority number is lower than that of the second, or equal
    and the first is left associative; otherwise the second is applied
    first. *)
Theorem two_operators_by_priority a op1 b op2 c :
  is_operand a = true -> is_operand b = true -> is_operand c = true ->
  infix_to_rpn [a; OperatorToken op1; b; OperatorToken op2; c]
  = Return (if yields_to op2 op1
            then [a; b; OperatorToken op1; c; OperatorToken op2]
            else [a; b; c; OperatorToken op2; OperatorToken op1]).
Proof.
  intros Ha Hb Hc.
  destruct a; try discriminate; destruct b; try discriminate; destruct c; try discriminate;
    unfold infix_to_rpn; cbn; destruct (yields_to op2 op1); reflexivity.
Qed.

Lemma two_operators_by_priority_witness :
  infix_to_rpn [IntegerToken "1" 1; OperatorToken ADDITION; IntegerToken "2" 2;
                OperatorToken MULTIPLICATION; IntegerToken "3" 3]
  = Return [IntegerToken "1" 1; IntegerToken "2" 2; IntegerToken "3" 3;
            OperatorToken MULTIPLICATION; OperatorToken ADDITION].
Proof.
  exact (two_operators_by_priority (IntegerToken "1" 1) ADDITION (IntegerToken "2" 2)
           MULTIPLICATION (IntegerToken "3" 3) eq_refl eq_refl eq_refl).
Defined.

(** ** [parse] is the converter after the lexer *)

Lemma parse_loop_Return fuel tk operators out :
  parse_loop fuel tk operators = Return out -> exists ts, iter_loop fuel tk = Return ts.
Proof.
  revert tk operators out. induction fuel as [|fuel IH]; intros tk operators out; [discriminate|].
  cbn [iter_loop parse_loop].
  destruct (next tk) as [[[t|] tk']|e|]; cbn [mbind result_bind]; try discriminate; [|eauto].
  destruct (rpn_step t operators) as [[ys ops]|e|]; cbn [mbind result_bind]; try discriminate.
  destruct (parse_loop fuel tk' ops) as [rest|e|] eqn:E; cbn [mbind result_bind]; try discriminate.
  intros _. destruct (IH _ _ _ E) as [ts ->]. cbn [mbind result_bind]. eauto.
Qed.

(** X12.  [parse] returns an expression exactly when the lexer gets to the
    end of the text and [infix_to_rpn] converts its tokens; the expression
    holds that postfix form.  The laziness of the two generators does not
    show in what is returned. *)
Theorem parse_is_infix_to_rpn_of_tokenize s rpn :
  parse s = Return {| tokens := rpn |}
  <-> exists ts, tokenize s = Return ts /\ infix_to_rpn ts = Return rpn.
Proof.
  split.
  - intros H. unfold parse in H.
    destruct (parse_loop _ _ []) as [out|e|] eqn:E; cbn [mbind result_bind] in H;
      try discriminate.
    injection H as ->.
    destruct (parse_loop_Return _ _ _ _ E) as [ts Hts]. exists ts. split; [exact Hts|].
    unfold infix_to_rpn. rewrite <- (parse_loop_iter_loop _ _ [] ts Hts). exact E.
  - intros (ts & Hts & Hrpn). rewrite (parse_tokenize s ts Hts), Hrpn. reflexivity.
Qed.

(** ** How [parse] fails *)

Lemma pop_until_raises is_open operators e :
  pop_until is_open operators = Raise e -> e = Exc IndexError Builtin.
Proof.
  induction operators as [|top rest IH]; simpl; [intros [= <-]; reflexivity|].
  destruct (is_open top); [discriminate|].
  destruct (pop_until is_open rest) as [[ys ops]|e'|]; simpl; try discriminate.
  intros [= <-]. apply IH. reflexivity.
Qed.

Lemma pop_operators_raises t operators e :
  pop_operators t operators = Raise e -> e = Exc AttributeError Builtin.
Proof.
  induction operators as [|top rest IH]; simpl; [discriminate|].
  destruct (is_OpenParen top); [discriminate|].
  destruct top; try (intros [= <-]; reflexivity).
  destruct (yields_to t op); [|discriminate].
  destruct (pop_operators t rest) as [[ys ops]|e'|]; simpl; try discriminate.
  intros [= <-]. apply IH. reflexivity.
Qed.

Lemma rpn_step_raises tok operators e :
  rpn_step tok operators = Raise e -> parse_failure e.
Proof.
  unfold parse_failure. destruct tok; simpl; try discriminate.
  - destruct (pop_until is_OpenParen operators) as [[ys ops]|e'|] eqn:E; simpl; try discriminate.
    intros [= <-]. apply pop_until_raises in E. auto.
  - destruct (pop_until is_OpenBracket operators) as [[ys ops]|e'|] eqn:E; simpl; try discriminate.
    intros [= <-]. apply pop_until_raises in E. auto.
  - destruct (pop_operators op operators) as [[ys ops]|e'|] eqn:E; simpl; try discriminate.
    intros [= <-]. apply pop_operators_raises in E. auto.
Qed.

Lemma rpn_finish_raises operators e :
  rpn_finish operators = Raise e -> parse_failure e.
Proof.
  unfold parse_failure. induction operators as [|top rest IH]; simpl; [discriminate|].
  destruct (is_Parenthesis top); [intros [= <-]; auto|].
  destruct (is_Bracket top); [intros [= <-]; auto 6|].
  destruct (rpn_finish rest) as [ys|e'|]; simpl; try discriminate.
  intros [= <-]. apply IH. reflexivity.
Qed.

Lemma parse_loop_raises fuel tk operators e :
  parse_loop fuel tk operators = Raise e -> parse_failure e.
Proof.
  revert tk operators. induction fuel as [|fuel IH]; intros tk operators; [discriminate|].
  cbn [parse_loop].
  destruct (next tk) as [[[t|] tk']|e'|] eqn:En; cbn [mbind result_bind]; try discriminate.
  - destruct (rpn_step t operators) as [[ys ops]|e'|] eqn:Es; cbn [mbind result_bind];
      try discriminate.
    + destruct (parse_loop fuel tk' ops) as [rest|e'|] eqn:El; cbn [mbind result_bind];
        try discriminate.
      intros [= <-]. exact (IH _ _ El).
    + intros [= <-]. exact (rpn_step_raises _ _ _ Es).
  - apply rpn_finish_raises.
  - intros [= <-]. left. exact (next_raises _ _ En).
Qed.

(** X13.  [parse] fails in five ways only: the [ValueError] of [int] on a
    malformed literal, the [IndexError] of [operators[-1]] on an empty
    stack, the [AttributeError] of [.op] on a bracket, and the two
    [RuntimeError]s for a delimiter left open. *)
Theorem parse_fails_in_five_ways s e : parse s = Raise e -> parse_failure e.
Proof.
  unfold parse.
  destruct (parse_loop _ _ []) as [out|e'|] eqn:E; cbn [mbind result_bind]; try discriminate.
  intros [= <-]. exact (parse_loop_raises _ _ _ _ E).
Qed.

Lemma parse_fails_in_five_ways_witness :
  parse "(1" = Raise mismatched_parenthesis /\ parse_failure mismatched_parenthesis.
Proof.
  split; [vm_compute; reflexivity|].
  apply (parse_fails_in_five_ways "(1"). vm_compute. reflexivity.
Defined.

Lemma arity_1_or_2 op : arity op = 1%nat \/ arity op = 2%nat.
Proof. destruct op; auto. Qed.

Lemma slice_last_app2 {A} (l : list A) x y : slice_last 2 (l ++ [x; y]) = [x; y].
Proof. apply (slice_last_app l [x; y]). discriminate. Qed.

Lemma slice_but_last_app2 {A} (l : list A) x y : slice_but_last 2 (l ++ [x; y]) = l.
Proof. apply (slice_but_last_app l [x; y]). discriminate. Qed.

Lemma slice_last_app1 {A} (l : list A) x : slice_last 1 (l ++ [x]) = [x].
Proof. apply (slice_last_app l [x]). discriminate. Qed.

Lemma slice_but_last_app1 {A} (l : list A) x : slice_but_last 1 (l ++ [x]) = l.
Proof. apply (slice_but_last_app l [x]). discriminate. Qed.

(** ** Stored errors *)

Section deferred.
Variable assignments : gmap string pyvalue.
Variable values : list pyvalue.
Variable e : PyExc.

Lemma deferred_error_unary op :
  arity op = 1%nat ->
  interpret_step assignments (values ++ [VExc e]) (OperatorToken op)
  = Return (values ++ [VExc e]).
Proof.
  intros Har. unfold interpret_step. rewrite Har, slice_last_app1, slice_but_last_app1.
  destruct op; try discriminate; reflexivity.
Qed.

Lemma deferred_error_binary op v r :
  arity op = 2%nat -> op <> TERNARY_ELSE ->
  get_value v assignments = Return r ->
  interpret_step assignments (values ++ [v; VExc e]) (OperatorToken op)
  = Return (values ++ [VExc e]).
Proof.
  intros Har Hop Hv. unfold interpret_step. rewrite Har, slice_last_app2, slice_but_last_app2.
  destruct op; try discriminate; try contradiction;
    cbn [expand init_expand Operator_value mk_op zip zip_with collect_args arity init_arity
         replicate];
    rewrite Hv; reflexivity.
Qed.
End deferred.

(** X14.  An operator other than [:] whose last operand is a stored error is
    not executed.  A unary operator leaves the stack as it is.  A binary
    operator still looks its other operand up: when the lookup returns, the
    error takes the place of both operands, and when the other operand is an
    unknown identifier the [KeyError] of the lookup is raised instead. *)
Theorem stored_error_skips_the_operator assignments values v e op :
  op <> TERNARY_ELSE ->
  interpret_step assignments (values ++ [v; VExc e]) (OperatorToken op)
  = (if bool_decide (arity op = 1%nat)
     then Return (values ++ [v; VExc e])
     else get_value v assignments ≫= fun _ => Return (values ++ [VExc e])).
Proof.
  intros Hop.
  destruct (arity_1_or_2 op) as [Har|Har].
  - rewrite bool_decide_eq_true_2 by exact Har.
    change (values ++ [v; VExc e]) with (values ++ [v] ++ [VExc e]).
    rewrite app_assoc. apply deferred_error_unary. exact Har.
  - rewrite bool_decide_eq_false_2 by (rewrite Har; discriminate).
    destruct (get_value v assignments) as [r|e'|] eqn:Hv; cbn [mbind result_bind].
    + apply (deferred_error_binary _ _ _ _ _ r); assumption.
    + unfold interpret_step. rewrite Har, slice_last_app2, slice_but_last_app2.
      destruct op; try discriminate; try contradiction;
        cbn [expand init_expand Operator_value mk_op zip zip_with collect_args arity
             init_arity replicate];
        rewrite Hv; reflexivity.
    + unfold interpret_step. rewrite Har, slice_last_app2, slice_but_last_app2.
      destruct op; try discriminate; try contradiction;
        cbn [expand init_expand Operator_value mk_op zip zip_with collect_args arity
             init_arity replicate];
        rewrite Hv; reflexivity.
Qed.

Lemma stored_error_skips_the_operator_witness :
  interpret_step ∅ [VToken (IntegerToken "1" 1); VExc (Exc KeyError Subscript_rendering)]
    (OperatorToken MULTIPLICATION)
  = Return [VExc (Exc KeyError Subscript_rendering)]
  /\ interpret_step ∅ [VToken (IdentifierToken "y"); VExc (Exc KeyError Subscript_rendering)]
       (OperatorToken MULTIPLICATION)
     = Raise (unknown_identifier "y").
Proof.
  split.
  - apply (stored_error_skips_the_operator ∅ [] (VToken (IntegerToken "1" 1))
             (Exc KeyError Subscript_rendering) MULTIPLICATION).
    discriminate.
  - eapply eq_trans.
    + apply (stored_error_skips_the_operator ∅ [] (VToken (IdentifierToken "y"))
               (Exc KeyError Subscript_rendering) MULTIPLICATION).
      discriminate.
    + vm_compute. reflexivity.
Defined.

(** ** The ternary *)

Lemma ternary_else_step assignments values t1 t2 :
  interpret_step assignments (values ++ [t1; t2]) (OperatorToken TERNARY_ELSE)
  = Return (values ++ [VTuple [t1; t2]]).
Proof.
  unfold interpret_step. change (arity TERNARY_ELSE) with 2%nat.
  rewrite slice_last_app2, slice_but_last_app2. reflexivity.
Qed.

Lemma pair_select t1 t2 b :
  py_getitem (VTuple [t1; t2]) (VBool b) = Return (if b then t2 else t1).
Proof. destruct b; reflexivity. Qed.

Lemma ternary_conditional_step assignments values c cv t1 t2 :
  get_value c assignments = Return cv ->
  (forall e, cv <> VExc e) ->
  interpret_step assignments (values ++ [c; VTuple [t1; t2]]) (OperatorToken TERNARY_CONDITIONAL)
  = get_value (if truthy cv then t1 else t2) assignments
      ≫= fun r => Return (values ++ [r]).
Proof.
  intros Hc Hcv. unfold interpret_step. change (arity TERNARY_CONDITIONAL) with 2%nat.
  rewrite slice_last_app2, slice_but_last_app2.
  cbn [expand init_expand Operator_value mk_op zip zip_with collect_args app mbind result_bind].
  rewrite Hc. cbn [mbind result_bind app].
  assert (Hexc : match cv with VExc e => Some e | _ => (None : option PyExc) end = None).
  { destruct cv; try reflexivity. destruct (Hcv e). reflexivity. }
  rewrite Hexc.
  rewrite (bool_decide_eq_false_2 (TERNARY_CONDITIONAL = TERNARY_ELSE)) by discriminate.
  rewrite (bool_decide_eq_false_2 (TERNARY_CONDITIONAL = GETITEM)) by discriminate.
  rewrite (bool_decide_eq_false_2 (TERNARY_CONDITIONAL = MEMBER_ACCESS)) by discriminate.
  rewrite (bool_decide_eq_true_2 (TERNARY_CONDITIONAL = TERNARY_CONDITIONAL)) by reflexivity.
  cbn [orb]. unfold execute. cbn [arity init_arity Operator_value mk_op execute2].
  rewrite pair_select, ret_bind, last_snoc.
  fold (slice_but_last 1 (values ++ [if negb (truthy cv) then t2 else t1])).
  rewrite slice_but_last_app1.
  destruct (truthy cv); reflexivity.
Qed.

(** X15.  On a stack that ends with a condition and two branches, the
    tokens [:] and [?] leave the value of the selected branch, the first
    one when the condition is true: only that branch is looked up, the other
    one is dropped as it stands, an unknown identifier or a stored error
    included. *)
Theorem ternary_selects_lazily assignments values c cv t1 t2 :
  get_value c assignments = Return cv ->
  (forall e, cv <> VExc e) ->
  interpret_loop assignments (values ++ [c; t1; t2])
    [OperatorToken TERNARY_ELSE; OperatorToken TERNARY_CONDITIONAL]
  = get_value (if truthy cv then t1 else t2) assignments
      ≫= fun r => Return (values ++ [r]).
Proof.
  intros Hc Hcv. cbn [interpret_loop].
  change (values ++ [c; t1; t2]) with (values ++ [c] ++ [t1; t2]).
  rewrite app_assoc, ternary_else_step, ret_bind, <- app_assoc. cbn [app].
  rewrite (ternary_conditional_step _ _ _ _ _ _ Hc Hcv).
  destruct (get_value (if truthy cv then t1 else t2) assignments); reflexivity.
Qed.

Lemma ternary_selects_lazily_witness :
  interpret_loop ∅ [VToken (IntegerToken "0" 0); VExc (Exc KeyError Subscript_rendering);
                    VToken (IntegerToken "7" 7)]
    [OperatorToken TERNARY_ELSE; OperatorToken TERNARY_CONDITIONAL]
  = Return [VInt 7].
Proof.
  apply (ternary_selects_lazily ∅ [] (VToken (IntegerToken "0" 0)) (VInt 0)).
  - reflexivity.
  - discriminate.
Defined.

(** ** The guarded operators *)




Lemma length_slice_last {A} k (l : list A) :
  length (slice_last (S k) l) = Nat.min (S k) (length l).
Proof. unfold slice_last. rewrite length_drop. lia. Qed.



(** ** [interpret] raises the error it is left with *)


(** ** Only well-formed postfix is evaluated *)

Lemma length_slice_but_last {A} k (l : list A) :
  length (slice_but_last (S k) l) = (length l - S k)%nat.
Proof. unfold slice_but_last. rewrite length_take. lia. Qed.

Lemma to_str_step_height values t values' :
  to_str_step values t = Return values' ->
  length values' = height_after (length values) t
  /\ (forall op, t = OperatorToken op -> (arity op <= length values)%nat).
Proof.
  destruct t; cbn [to_str_step height_after];
    try (intros [= <-]; rewrite length_app; simpl; split; [lia | discriminate]).
  destruct (bool_decide (length (slice_last (arity op) values) = arity op)) eqn:E;
    cbn [negb]; [|discriminate].
  apply bool_decide_eq_true in E.
  assert (Hle : (arity op <= length values)%nat).
  { destruct (arity_1_or_2 op) as [H|H]; rewrite H in E |- *;
      rewrite length_slice_last in E; lia. }
  intros H. split; [|intros ? [= <-]; exact Hle].
  destruct (arity_1_or_2 op) as [Har|Har]; rewrite Har in *.
  - destruct (slice_last 1 values) as [|a1 [|? ?]]; try discriminate.
    destruct (left_associative op); injection H as <-;
      rewrite length_app; unfold slice_but_last; rewrite ?length_take; simpl; lia.
  - destruct (slice_last 2 values) as [|a2 [|a1 [|? ?]]]; try discriminate.
    injection H as <-.
    rewrite length_app; unfold slice_but_last; rewrite ?length_take; simpl; lia.
Qed.

Lemma interpret_step_height assignments values t values' :
  interpret_step assignments values t = Return values' ->
  (forall op, t = OperatorToken op -> (arity op <= length values)%nat) ->
  length values' = height_after (length values) t.
Proof.
  destruct t; cbn [interpret_step height_after];
    try (intros [= <-] _; rewrite length_app; simpl; lia).
  intros H Hle. specialize (Hle op eq_refl).
  destruct (collect_args assignments _ [] None) as [[args exception]|e|];
    cbn [mbind result_bind] in H; try discriminate.
  assert (Hbut : forall r : pyvalue,
            length (slice_but_last (arity op) values ++ [r])
            = (length values - arity op + 1)%nat).
  { intros r. rewrite length_app.
    destruct (arity_1_or_2 op) as [Har|Har]; rewrite Har;
      rewrite length_slice_but_last; simpl; lia. }
  destruct (if bool_decide (op = TERNARY_ELSE) then None else exception) as [e|].
  - injection H as <-. apply Hbut.
  - destruct (if bool_decide (op = GETITEM) || bool_decide (op = MEMBER_ACCESS)
              then execute_guarded op args values else execute op args) as [r|e|];
      cbn [mbind result_bind] in H; try discriminate.
    destruct (bool_decide (op = TERNARY_CONDITIONAL)).
    + rewrite last_snoc in H.
      destruct (get_value r assignments) as [top'|e|]; cbn [mbind result_bind] in H;
        try discriminate.
      injection H as <-. rewrite length_app, length_take, Hbut. simpl. lia.
    + injection H as <-. apply Hbut.
Qed.

Lemma height_after_count n t :
  (forall op, t = OperatorToken op -> (arity op <= n)%nat) ->
  (height_after n t + (if is_binary t then 1 else 0)
   = n + (if is_value_token t then 1 else 0))%nat.
Proof.
  destruct t; cbn [height_after is_binary is_value_token is_OperatorToken negb];
    try (intros _; lia).
  intros H. specialize (H op eq_refl).
  destruct (arity_1_or_2 op) as [Har|Har]; rewrite Har in *.
  - rewrite bool_decide_eq_false_2 by discriminate. lia.
  - rewrite bool_decide_eq_true_2 by reflexivity. lia.
Qed.

Lemma loops_height assignments ts :
  forall strs values strs' values',
    length strs = length values ->
    to_str_loop strs ts = Return strs' ->
    interpret_loop assignments values ts = Return values' ->
    (length values' + length (List.filter is_binary ts)
     = length values + length (List.filter is_value_token ts))%nat.
Proof.
  induction ts as [|t ts IH]; intros strs values strs' values' Hlen Hs Hv.
  - simpl in *. injection Hv as <-. lia.
  - cbn [to_str_loop interpret_loop] in Hs, Hv.
    destruct (to_str_step strs t) as [strs1|e|] eqn:Es; cbn [mbind result_bind] in Hs;
      try discriminate.
    destruct (interpret_step assignments values t) as [values1|e|] eqn:Ev;
      cbn [mbind result_bind] in Hv; try discriminate.
    apply to_str_step_height in Es as [Hs1 Hle]. rewrite Hlen in Hs1, Hle.
    apply interpret_step_height in Ev; [|exact Hle].
    specialize (IH strs1 values1 strs' values' ltac:(congruence) Hs Hv).
    pose proof (height_after_count (length values) t Hle) as Hc.
    cbn [List.filter].
    destruct (is_binary t), (is_value_token t); cbn [length]; lia.
Qed.

(** X18.  [interpret] returns a value only for an expression with one more
    operand than it has binary operators.  It is [to_str], called for the
    first log line, that refuses an operator without its operands; without
    it the guarded operators would store the [TypeError] of a missing
    argument as a value. *)
Theorem interpret_wants_well_formed_postfix e assignments v :
  interpret e assignments = Return v ->
  length (List.filter is_value_token (tokens e))
  = S (length (List.filter is_binary (tokens e))).
Proof.
  unfold interpret, to_str. intros H.
  destruct (to_str_loop [] (tokens e)) as [strs|?|] eqn:Es; cbn [mbind result_bind] in H;
    try discriminate.
  destruct (interpret_loop assignments [] (tokens e)) as [values|?|] eqn:Ev;
    cbn [mbind result_bind] in H; try discriminate.
  pose proof (loops_height assignments (tokens e) [] [] strs values eq_refl Es Ev) as Hh.
  destruct values as [|v0 [|v1 values]]; try discriminate.
  simpl in Hh. lia.
Qed.

Lemma interpret_wants_well_formed_postfix_witness :
  length (List.filter is_value_token
            [IntegerToken "1" 1; IntegerToken "2" 2; OperatorToken ADDITION])
  = S (length (List.filter is_binary
            [IntegerToken "1" 1; IntegerToken "2" 2; OperatorToken ADDITION])).
Proof.
  apply (interpret_wants_well_formed_postfix
           {| tokens := [IntegerToken "1" 1; IntegerToken "2" 2; OperatorToken ADDITION] |}
           ∅ (VInt 3)).
  vm_compute. reflexivity.
Defined.

(** ** Big-endian reading of bytes *)

Lemma byte_val_range b : 0 <= byte_val b < 256.
Proof.
  unfold byte_val. pose proof (Byte.to_N_bounded b). lia.
Qed.

Lemma from_bytes_big_acc acc bs :
  foldl (fun acc b => acc * 256 + byte_val b) acc bs
  = acc * 256 ^ Z.of_nat (length bs) + from_bytes_big bs.
Proof.
  unfold from_bytes_big. revert acc. induction bs as [|b bs IH]; intros acc.
  - simpl. lia.
  - cbn [foldl length]. rewrite IH, (IH (0 * 256 + byte_val b)).
    rewrite Nat2Z.inj_succ, Z.pow_succ_r by lia. lia.
Qed.

Lemma from_bytes_big_app x y :
  from_bytes_big (x ++ y) = from_bytes_big x * 256 ^ Z.of_nat (length y) + from_bytes_big y.
Proof.
  unfold from_bytes_big at 1. rewrite foldl_app. fold (from_bytes_big x).
  apply from_bytes_big_acc.
Qed.

Lemma from_bytes_big_range bs : 0 <= from_bytes_big bs < 256 ^ Z.of_nat (length bs).
Proof.
  induction bs as [|b bs IH] using rev_ind.
  - simpl. unfold from_bytes_big. simpl. lia.
  - rewrite from_bytes_big_app, length_app. cbn [length].
    replace (from_bytes_big [b]) with (byte_val b) by (unfold from_bytes_big; simpl; lia).
    pose proof (byte_val_range b).
    rewrite Nat2Z.inj_add, Z.pow_add_r by lia.
    change (256 ^ Z.of_nat 1) with 256. nia.
Qed.

(** X19.  [to_int] reads a byte string as a big-endian number, in its
    three branches alike: the empty string is [0], a single byte is its own
    number, the value of [x ++ y] is that of [x] shifted by the length of
    [y], plus that of [y], and the value of [x] is below [256 ^ len(x)]. *)
Theorem to_int_bytes_is_big_endian x y b :
  to_int (VBytes []) = Return 0
  /\ to_int (VBytes [b]) = Return (Z.of_N (Byte.to_N b))
  /\ exists nx ny,
       to_int (VBytes x) = Return nx /\ to_int (VBytes y) = Return ny
       /\ to_int (VBytes (x ++ y)) = Return (nx * 256 ^ Z.of_nat (length y) + ny)
       /\ 0 <= nx < 256 ^ Z.of_nat (length x).
Proof.
  split; [reflexivity|]. split; [reflexivity|].
  exists (from_bytes_big x), (from_bytes_big y).
  rewrite !to_int_bytes_big_endian, from_bytes_big_app.
  repeat split; try apply from_bytes_big_range.
Qed.

(** ** Arithmetic on integer literals *)

(** X20.  [/] and [%] on integer literals are floor division and its
    remainder: [x = y * q + r] with [r] of the sign of the divisor and
    smaller than it; a divisor of zero is raised as [ZeroDivisionError]. *)
Theorem division_is_floor_division assignments rx ry x y :
  if y =? 0 then
    binary_on_literals assignments rx ry x y DIVISION = Raise (Exc ZeroDivisionError Builtin)
    /\ binary_on_literals assignments rx ry x y REMAINDER
       = Raise (Exc ZeroDivisionError Builtin)
  else
    exists q r,
      binary_on_literals assignments rx ry x y DIVISION = Return (VInt q)
      /\ binary_on_literals assignments rx ry x y REMAINDER = Return (VInt r)
      /\ x = y * q + r
      /\ (0 <= r < y \/ y < r <= 0).
Proof.
  unfold binary_on_literals, interpret.
  destruct (y =? 0) eqn:Hy.
  - apply Z.eqb_eq in Hy as ->. split; reflexivity.
  - exists (x / y), (x mod y).
    cbn. unfold execute; cbn. unfold arith, floordiv, remainder; cbn.
    rewrite Hy. cbn. apply Z.eqb_neq in Hy.
    repeat split.
    + apply Z.div_mod. exact Hy.
    + destruct (Z.lt_ge_cases 0 y).
      * left. apply Z.mod_pos_bound. assumption.
      * right. apply Z.mod_neg_bound. lia.
Qed.

(** X21.  [<<] multiplies by a power of two and [>>] is the floor division
    by one, for negative left operands too; a negative shift count is raised
    as [ValueError]. *)
Theorem shifts_scale_by_powers_of_two assignments rx ry x y :
  binary_on_literals assignments rx ry x y BITWISE_LEFT_SHIFT
  = (if y <? 0 then Raise (Exc ValueError Builtin) else Return (VInt (x * 2 ^ y)))
  /\ binary_on_literals assignments rx ry x y BITWISE_RIGHT_SHIFT
     = (if y <? 0 then Raise (Exc ValueError Builtin) else Return (VInt (x / 2 ^ y))).
Proof.
  unfold binary_on_literals, interpret.
  cbn. unfold execute; cbn. unfold arith, lshift, rshift; cbn.
  destruct (y <? 0) eqn:Hy; cbn; [auto|].
  apply Z.ltb_ge in Hy.
  rewrite Z.shiftl_mul_pow2, Z.shiftr_div_pow2 by lia. auto.
Qed.

(** ** [collect_keys] *)

(** X22.  [collect_keys] returns the keys of the mapping and of every
    mapping nested in it as a value, at any depth, and nothing else. *)
Theorem collect_keys_spec d k :
  k ∈ collect_keys d
  <-> is_Some (d !! k)
      \/ exists k' d', d !! k' = Some (VDict d') /\ k ∈ collect_keys d'.
Proof.
  unfold collect_keys at 1. cbn [collect_keys_in].
  revert k. apply (map_fold_weak_ind (fun (keys : gset string) (m : gmap string pyvalue) =>
    forall k, k ∈ keys <-> is_Some (m !! k)
        \/ exists k' d', m !! k' = Some (VDict d') /\ k ∈ collect_keys d')).
  - intros k. split; [set_solver|].
    intros [[? H]|(k' & d' & H & _)]; rewrite lookup_empty in H; discriminate.
  - intros i x m keys Hi IH k.
    assert (Hnested : (exists k' d', <[i:=x]> m !! k' = Some (VDict d') /\ k ∈ collect_keys d')
              <-> (exists d', x = VDict d' /\ k ∈ collect_keys d')
                  \/ (exists k' d', m !! k' = Some (VDict d') /\ k ∈ collect_keys d')).
    { split.
      - intros (k' & d' & H & Hk). destruct (decide (i = k')) as [->|Hne].
        + rewrite lookup_insert_eq in H. injection H as ->. left. eauto.
        + rewrite lookup_insert_ne in H by assumption. right. eauto.
      - intros [(d' & -> & Hk)|(k' & d' & H & Hk)].
        + exists i, d'. rewrite lookup_insert_eq. auto.
        + exists k', d'. split; [|exact Hk].
          rewrite lookup_insert_ne; [exact H|]. intros ->. rewrite Hi in H. discriminate. }
    assert (Hdom : is_Some (<[i:=x]> m !! k) <-> k = i \/ is_Some (m !! k)).
    { rewrite lookup_insert_is_Some. split; [intros [->|[_ H]]; auto|].
      intros [->|H]; [auto|]. destruct (decide (i = k)); auto. }
    rewrite Hnested, Hdom.
    destruct x; rewrite ?elem_of_union, elem_of_singleton, IH;
      try (split; [intros [?|[?|?]]; auto | intros [[?|?]|[(d' & Hd & _)|?]]; auto; discriminate]).
    fold (collect_keys d).
    split.
    + intros [[?|[?|?]]|?]; eauto 7.
    + intros [[?|?]|[(d' & [= <-] & ?)|?]]; auto.
Qed.
